(** * rebrief.st_model_wrappers: model adapters and the bounded-input
      summarization driver

    A shallow embedding of [src/rebrief/st_model_wrappers.py]:

    - [Py]: the Python string and list primitives the driver uses
      ([str.split], [str.join], truthiness of a string);
    - [Driver]: [abstractive_summary], written in a small monad that
      threads the list of texts submitted to the model and carries Python
      exceptions; the [while] loop of the sentence fallback takes fuel;
    - [Adapter]: the [SummarizationModel] attrs class, with the equality
      that [@attr.s()] generates, the [__hash__] the class body writes and
      what the decorator makes of it;
    - [Registry]: the four adapters the module defines;
    - [DriverProps]: properties of whole runs of the driver (calls made,
      answers kept, fuel needed, documents put one after the other).

    Python [str] values are embedded as [string].  The driver only ever
    cuts at the ASCII characters LF and period, which never occur inside a
    multi-byte UTF-8 sequence, so cutting a byte string and cutting the
    code-point string agree. *)

From Stdlib Require Import Ascii String.
From stdpp Require Import gmap strings list.

Local Open Scope string_scope.
Local Open Scope list_scope.

(** ** Python primitives *)

Module Py.

(** The line feed character, Python's ["\n"]. *)
Definition LF : ascii := "010"%char.

(** The one-character string ["\n"] that joins the partial summaries. *)
Definition NL : string := String LF EmptyString.

(** The period character, Python's ["."]. *)
Definition DOT : ascii := "."%char.

(** [s.split(sep)] for a one-character separator: the text is cut at every
    occurrence of [sep]; empty pieces are kept, so the result always has
    one more element than [s] has separators. *)
Fixpoint split (sep : ascii) (s : string) : list string :=
  match s with
  | EmptyString => [EmptyString]
  | String c s' =>
      if Ascii.eqb c sep then EmptyString :: split sep s'
      else match split sep s' with
           | [] => [String c EmptyString]
           | w :: ws => String c w :: ws
           end
  end.

(** [sep.join(l)]. *)
Fixpoint join (sep : string) (l : list string) : string :=
  match l with
  | [] => EmptyString
  | [x] => x
  | x :: (_ :: _) as l' => x +:+ sep +:+ join sep l'
  end.

(** Truthiness of a [str]: every string but the empty one. *)
Definition truthy (s : string) : bool :=
  match s with
  | EmptyString => false
  | String _ _ => true
  end.

(** Number of occurrences of a character in a text. *)
Fixpoint count (c : ascii) (s : string) : nat :=
  match s with
  | EmptyString => 0
  | String c' s' => (if Ascii.eqb c' c then 1 else 0) + count c s'
  end.

End Py.

(** ** Exceptions, outcomes and the driver's monad *)

(** The exceptions the driver can meet.  [IndexError] is the one the two
    [except] clauses name; [KeyError] is what a missing dictionary key
    raises; [OtherError] stands for every other exception class a model
    runtime may raise. *)
Inductive exn : Type :=
  | IndexError
  | KeyError (key : string)
  | OtherError (what : string).

Global Instance exn_eq_dec : EqDecision exn.
Proof. solve_decision. Defined.

(** Outcome of running a piece of the driver: a value, a raised exception,
    or the fuel of a [while] loop ran out before the loop finished. *)
Inductive res (A : Type) : Type :=
  | Val (a : A)
  | Exc (e : exn)
  | OutOfFuel.
Arguments Val {A} a.
Arguments Exc {A} e.
Arguments OutOfFuel {A}.

(** The texts submitted to the model so far, oldest first. *)
Abbreviation trace := (list string).

(** A computation reads the trace and returns an outcome with the extended
    trace; the trace survives a raise. *)
Definition M (A : Type) : Type := trace → res A * trace.

Definition ret {A} (a : A) : M A := fun tr => (Val a, tr).

Definition raise {A} (e : exn) : M A := fun tr => (Exc e, tr).

Definition out_of_fuel {A} : M A := fun tr => (OutOfFuel, tr).

Definition bind {A B} (m : M A) (k : A → M B) : M B :=
  fun tr =>
    match m tr with
    | (Val a, tr') => k a tr'
    | (Exc e, tr') => (Exc e, tr')
    | (OutOfFuel, tr') => (OutOfFuel, tr')
    end.

Notation "x <- m ;; k" := (bind m (fun x => k))
  (at level 100, m at next level, right associativity).

(** [try: body except IndexError: handler].  Only [IndexError] is caught;
    an exception raised by the handler itself is not caught again. *)
Definition try_except_IndexError {A} (body handler : M A) : M A :=
  fun tr =>
    match body tr with
    | (Exc IndexError, tr') => handler tr'
    | r => r
    end.

(** What a summarization pipeline returns: a list of dictionaries. *)
Abbreviation output := (list (gmap string string)).

(** A loaded model handle: called on a text, it raises or returns an
    output.  The handle is read-only, so it is a function of the text. *)
Abbreviation pipeline := (string → exn + output).

(** ** The driver *)

Module Driver.
Import Py.

Section WithModel.

Variable model : pipeline.

(** [model(text, return_tensors=False, clean_up_tokenization_spaces=True)],
    recording the submitted text. *)
Definition call_model (text : string) : M output :=
  fun tr =>
    (match model text with inl e => Exc e | inr out => Val out end,
     tr ++ [text]).

(** [output[0]]. *)
Definition getitem0 (out : output) : M (gmap string string) :=
  match out !! 0 with
  | Some d => ret d
  | None => raise IndexError
  end.

(** [d[key]]. *)
Definition getitem (d : gmap string string) (key : string) : M string :=
  match d !! key with
  | Some v => ret v
  | None => raise (KeyError key)
  end.

(** The two statements every [try] body and the loop body share:
    [output = model(text, ...)] followed by [output[0]['summary_text']]. *)
Definition summary_text (text : string) : M string :=
  out <- call_model text ;;
  d <- getitem0 out ;;
  getitem d "summary_text".

(** The [while sentences:] loop (lines 130-134).  [summary] is the list
    the loop appends to. *)
Fixpoint while_sentences (fuel segment_size : nat)
    (sentences summary : list string) : M (list string) :=
  match sentences with
  | [] => ret summary
  | _ :: _ =>
      match fuel with
      | 0 => out_of_fuel
      | S fuel' =>
          let segment := join ". " (take segment_size sentences) in
          let sentences := drop segment_size sentences in
          s <- summary_text segment ;;
          while_sentences fuel' segment_size sentences (summary ++ [s])
      end
  end.

(** The body of the inner [except IndexError:] (lines 126-134).
    [int(len(sentences)/chunks)] is the floor of the quotient. *)
Definition split_further (fuel : nat) (paragraph : string)
    (summary : list string) : M (list string) :=
  let sentences := split DOT paragraph in
  let chunks := 2 in
  let segment_size := length sentences / chunks in
  while_sentences fuel segment_size sentences summary.

(** The [for paragraph in paragraphs:] loop (lines 120-134). *)
Fixpoint for_paragraphs (fuel : nat) (paragraphs summary : list string)
    : M (list string) :=
  match paragraphs with
  | [] => ret summary
  | paragraph :: rest =>
      summary <- try_except_IndexError
                  (s <- summary_text paragraph ;; ret (summary ++ [s]))
                  (split_further fuel paragraph summary) ;;
      for_paragraphs fuel rest summary
  end.

(** [abstractive_summary(text, model)] (lines 111-136).  [fuel] bounds the
    iterations of each [while] loop. *)
Definition abstractive_summary (fuel : nat) (text : string) : M string :=
  try_except_IndexError
    (summary_text text)
    (let paragraphs := split LF text in
     let paragraphs := List.filter truthy paragraphs in
     summary <- for_paragraphs fuel paragraphs [] ;;
     ret (join NL summary)).

(** The outcome of the model call together with the extraction of
    ['summary_text'], without the trace. *)
Definition answer (text : string) : res string :=
  fst (summary_text text []).

End WithModel.

(** A model with a character budget: it raises [IndexError] on a text
    longer than [budget] and otherwise answers with the text in angle
    brackets. *)
Definition budget_model (budget : nat) : pipeline :=
  fun text =>
    if Nat.ltb budget (String.length text) then inl IndexError
    else inr [ {[ "summary_text" := "<" +:+ text +:+ ">" ]} ].

End Driver.

(** ** The adapter class *)

Module Adapter.

(** A Python function object stored in a field without being called.
    Function objects compare by identity: [id] stands for the identity of
    the object, and two different functions never share one, whatever
    their names. *)
Inductive callable : Type :=
  | FunctionObject (id : nat).

Global Instance callable_eq_dec : EqDecision callable.
Proof. solve_decision. Defined.

(** The eight functions the adapters of the module hold (lines 44-55, 108
    and 111): eight different objects. *)
Module Fn.

Definition load_abstractive_model : callable := FunctionObject 1.

Definition abstractive_summary : callable := FunctionObject 2.

Definition load_neural_extractive_model : callable := FunctionObject 3.

Definition summarize : callable := FunctionObject 4.

Definition build_classic_nlp_pipeline : callable := FunctionObject 5.

Definition classic_summary : callable := FunctionObject 6.

Definition build_trf_nlp_pipeline : callable := FunctionObject 7.

Definition sentence_summary_upgrade : callable := FunctionObject 8.

End Fn.

(** The five [attr.ib()] fields of [SummarizationModel], in declaration
    order (lines 98-102). *)
Record SummarizationModel : Type := {
  name : string;
  load : callable;
  summarize : callable;
  display_name : string;
  description : string
}.

(** The [__eq__] that [@attr.s()] generates with its default [eq=True]:
    for two instances of the class, the tuples of all fields, in
    declaration order, are compared. *)
Definition __eq__ (self other : SummarizationModel) : bool :=
  bool_decide
    ((name self, load self, summarize self, display_name self,
      description self)
     = (name other, load other, summarize other, display_name other,
        description other)).

(** The method [__hash__] of the class body (lines 104-105).  It returns
    the name, a [str].  It is the method the body writes, not the
    [__hash__] of the decorated class: see [hash_attribute]. *)
Definition __hash__ (self : SummarizationModel) : string :=
  name self.

(** What [attr.s] does about [__hash__], as the attrs library documents
    it: it leaves the attribute of the class untouched, adds a generated
    method, or stores [None] to mark the class unhashable. *)
Inductive hash_decision : Type :=
  | LeaveUntouched
  | AddGenerated
  | MakeUnhashable.

(** The decision from the arguments [eq], [frozen] and [hash] of [attr.s]
    (with [auto_detect] off, its default for [attr.s]): an explicit
    [hash] is obeyed; otherwise a class with a generated equality gets a
    generated hash when frozen and is made unhashable when not, and a
    class without generated equality is left alone. *)
Definition attr_s_hash_decision (eq frozen : bool) (hash : option bool)
    : hash_decision :=
  match hash with
  | Some true => AddGenerated
  | Some false => LeaveUntouched
  | None =>
      if eq then (if frozen then AddGenerated else MakeUnhashable)
      else LeaveUntouched
  end.

(** The [__hash__] attribute of a decorated class. *)
Inductive hash_attribute : Type :=
  | AttributeNone
  | BodyMethod (method : SummarizationModel → string)
  | GeneratedMethod.

Definition decorated_hash_attribute (eq frozen : bool) (hash : option bool)
    : hash_attribute :=
  match attr_s_hash_decision eq frozen hash with
  | LeaveUntouched => BodyMethod __hash__
  | AddGenerated => GeneratedMethod
  | MakeUnhashable => AttributeNone
  end.

(** The result of the built-in [hash(self)]: the hash of the tuple of the
    fields, which is what the generated method computes, or a
    [TypeError]. *)
Inductive hash_outcome : Type :=
  | HashOfFields (fields : string * callable * callable * string * string)
  | TypeError (message : string).

(** [hash(self)] for a class decorated with the given arguments.  An
    attribute [None] makes the object unhashable; the method of the body is
    called, and since its result is a [str] and not an [int], the built-in
    rejects it. *)
Definition hash_with (eq frozen : bool) (hash : option bool)
    (self : SummarizationModel) : hash_outcome :=
  match decorated_hash_attribute eq frozen hash with
  | AttributeNone => TypeError "unhashable type: 'SummarizationModel'"
  | BodyMethod method =>
      let result := method self in
      TypeError "__hash__ method should return an integer"
  | GeneratedMethod =>
      HashOfFields (name self, load self, summarize self,
                    display_name self, description self)
  end.

(** [hash(self)] for the class as the source decorates it, with
    [@attr.s()]: the equality is generated, the class is not frozen and
    [hash] is not given. *)
Definition hash (self : SummarizationModel) : hash_outcome :=
  hash_with true false None self.

(** The [abstractive] adapter of the module (lines 138-157); the
    description is cut after its heading. *)
Definition abstractive : SummarizationModel := {|
  name := "abstractive";
  load := Fn.load_abstractive_model;
  summarize := Fn.abstractive_summary;
  display_name := "Neural Abstractive";
  description := "### HuggingFace Summarization Pipeline"
|}.

End Adapter.

(** ** The specification's reading of a paragraph *)

Module Spec.
Import Py.

(** Follows the specification's words, not the source: a paragraph
    boundary is a blank line, that is two consecutive line feeds.  The text
    is cut at every such pair, scanning from the left. *)
Fixpoint split_blank_lines (s : string) : list string :=
  match s with
  | EmptyString => [EmptyString]
  | String c s' =>
      match s' with
      | String c' s'' =>
          if Ascii.eqb c LF && Ascii.eqb c' LF
          then EmptyString :: split_blank_lines s''
          else match split_blank_lines s' with
               | [] => [String c EmptyString]
               | w :: ws => String c w :: ws
               end
      | EmptyString => [String c EmptyString]
      end
  end.

(** The specification's paragraphs: the blank-line pieces that are not
    empty. *)
Definition paragraphs (text : string) : list string :=
  List.filter truthy (split_blank_lines text).

(** The paragraph-level retry as the specification words it: when the
    whole document exceeds the budget and every blank-line paragraph fits,
    the summary is the newline-joined summaries of those paragraphs. *)
Definition paragraph_retry_on_blank_lines : Prop :=
  ∀ (model : pipeline) (fuel : nat) (text : string) (sums : list string),
    Driver.answer model text = Exc IndexError →
    Forall2 (λ p s, Driver.answer model p = Val s) (paragraphs text) sums →
    fst (Driver.abstractive_summary model fuel text []) = Val (join NL sums).

(** The empty-document policy as the specification words it: whatever
    the model, summarizing the empty document returns a summary and raises
    nothing. *)
Definition empty_document_never_raises : Prop :=
  ∀ (model : pipeline) (fuel : nat),
    ∃ (s : string) (tr : trace),
      Driver.abstractive_summary model fuel EmptyString [] = (Val s, tr).

(** Adapter identity as the specification words it: the same [name]
    makes two instances compare equal. *)
Definition same_name_compares_equal : Prop :=
  ∀ a b : Adapter.SummarizationModel,
    Adapter.name a = Adapter.name b → Adapter.__eq__ a b = true.

End Spec.

(** ** Auxiliary notions for the statements *)

Module Aux.
Import Py Driver.

(** The [j]-th segment the sentence fallback submits for a paragraph:
    [segment_size] sentence units from position [j * segment_size] on,
    joined with [". "]. *)
Definition segment_of (segment_size : nat) (sentences : list string)
    (j : nat) : string :=
  join ". " (take segment_size (drop (j * segment_size) sentences)).

Definition segment (paragraph : string) (j : nat) : string :=
  segment_of (length (split DOT paragraph) / 2) (split DOT paragraph) j.

(** A computation lets every failure of a model call other than
    [IndexError] through: such a call is the last one made and its
    exception is the outcome. *)
Definition propagates {A} (model : pipeline) (m : M A) : Prop :=
  ∀ (tr tr' : trace) (r : res A),
    m tr = (r, tr') →
    ∃ calls : list string,
      tr' = tr ++ calls ∧
      ∀ (x : string) (e : exn),
        x ∈ calls → answer model x = Exc e → e ≠ IndexError →
        r = Exc e ∧ last calls = Some x.

(** A model runtime that rejects every input with an exception that is
    not [IndexError]. *)
Definition rejecting_model : pipeline :=
  fun _ => inl (OtherError "ValueError").

(** A budget of three characters, and a runtime failure on the text
    ["b"]. *)
Definition fragile_model : pipeline :=
  fun text =>
    if String.eqb text "b" then inl (OtherError "RuntimeError")
    else budget_model 3 text.

(** A document of two blank-line paragraphs, the first of two lines. *)
Definition two_line_paragraph_document : string :=
  join NL ["a"; "b"; EmptyString; "c"].

(** The [abstractive] adapter reconstructed with another display name. *)
Definition abstractive_renamed : Adapter.SummarizationModel := {|
  Adapter.name := "abstractive";
  Adapter.load := Adapter.Fn.load_abstractive_model;
  Adapter.summarize := Adapter.Fn.abstractive_summary;
  Adapter.display_name := "Abstractive (BART)";
  Adapter.description := "### HuggingFace Summarization Pipeline"
|}.

End Aux.

(** ** Notions for the properties of whole runs *)

Module Runs.
Import Py Driver.

(** The value of a successful answer. *)
Definition answered (model : pipeline) (x : string) : option string :=
  match answer model x with
  | Val s => Some s
  | _ => None
  end.

(** The answers of the calls that succeeded among the submitted texts, in
    the order of the calls. *)
Definition answers (model : pipeline) (calls : list string) : list string :=
  omap (answered model) calls.

(** The outcome with a list put in front of the value. *)
Definition prepend (acc : list string) (r : res (list string))
    : res (list string) :=
  match r with
  | Val l => Val (acc ++ l)
  | Exc e => Exc e
  | OutOfFuel => OutOfFuel
  end.

(** The segments the sentence fallback submits for a paragraph with at
    least two sentence units: two when their number is even, three when
    it is odd. *)
Definition segments (paragraph : string) : list string :=
  map (Aux.segment paragraph)
    (seq 0 (if Nat.even (length (split DOT paragraph)) then 2 else 3)).

(** The lists of sentence units the loop slices off a paragraph with at
    least two units, one list per iteration: [segment_size] units from
    position [j * segment_size] on, for two iterations when the number of
    units is even and three when it is odd. *)
Definition unit_chunks (paragraph : string) : list (list string) :=
  let sentences := split DOT paragraph in
  let segment_size := length sentences / 2 in
  map (λ j, take segment_size (drop (j * segment_size) sentences))
    (seq 0 (if Nat.even (length sentences) then 2 else 3)).

(** The texts submitted for one paragraph: the paragraph, followed by its
    segments when its call raises [IndexError]. *)
Definition paragraph_calls (model : pipeline) (paragraph : string)
    : list string :=
  match answer model paragraph with
  | Exc IndexError => paragraph :: segments paragraph
  | _ => [paragraph]
  end.

(** A pipeline whose output is a dictionary without ['summary_text']. *)
Definition keyless_model : pipeline :=
  fun _ => inr [ {[ "generated_text" := "x" ]} ].

(** The budget model, except that a text over the budget gives an empty
    output list instead of an [IndexError] raised inside the call. *)
Definition silent_budget_model (budget : nat) : pipeline :=
  fun text =>
    if Nat.ltb budget (String.length text) then inr []
    else inr [ {[ "summary_text" := "<" +:+ text +:+ ">" ]} ].

End Runs.

(** ** The adapters the module defines *)

Module Registry.
Import Py Adapter.

(** The double quote character, as a string. *)
Definition QUOTE : string := String "034"%char EmptyString.

(** The [abstractive] adapter (lines 138-157), with its whole
    description. *)
Definition abstractive : SummarizationModel := {|
  name := "abstractive";
  load := Fn.load_abstractive_model;
  summarize := Fn.abstractive_summary;
  display_name := "Neural Abstractive";
  description :=
    join NL
      ["### HuggingFace Summarization Pipeline ";
       (" HuggingFace     provide models that perform _abstractive_ " +:+
        "document summarization.     These models ingest a document " +:+
        "and then generate text word by word     (or token by token) " +:+
        "until a summary of a desired length is achieved.     ");
       EmptyString;
       (" While these models currently represent the " +:+
        "state-of-the-art in text     summarization, they do have " +:+
        "some drawbacks. Namely, as Transformers, these    models " +:+
        "are limited in the amount of text they can process at one " +:+
        "time.     Secondly, Transformers are typically more " +:+
        "computationally demanding than     traditional models. And " +:+
        "finally, any model that generates text word by word     can " +:+
        "occasionally produce inaccurate or factually incorrect " +:+
        "summaries.     ");
       EmptyString;
       (" This HF summization pipeline loads a distilBART model -- a " +:+
        QUOTE +:+
        "distilled" +:+
        QUOTE +:+
        "     version of Facebook's BART model -- which is 25% more " +:+
        "computationally efficient     than the original while " +:+
        "matching the larger model's accuracy. It is trained    on " +:+
        "the CNN/Daily Mail dataset, a standard for summarization " +:+
        "tasks.")]
|}.

(** The [modern_extractive] adapter (lines 159-178), with its whole
    description. *)
Definition modern_extractive : SummarizationModel := {|
  name := "modern_extractive";
  load := Fn.load_neural_extractive_model;
  summarize := Fn.summarize;
  display_name := "Neural Extractive";
  description :=
    join NL
      ["### Fine-tuning SentenceBERT ";
       (" For this model     we train a Transformer to perform " +:+
        "_extractive_ rather than _abstractive_ summarization.     " +:+
        "While the details of the approach can be found in our blog " +:+
        "post, [Extractive     Summarization with " +:+
        "SentenceBERT](TODO: LINK), here's the gist.     ");
       EmptyString;
       (" The CNN/Daily Mail dataset includes news articles as well " +:+
        "as human-generated    " +:+
        QUOTE +:+
        "highlights" +:+
        QUOTE +:+
        ", which provide an article summary. We identify the " +:+
        "sentences in the     article that most closely match those " +:+
        "from the highlights and assign them the label     " +:+
        QUOTE +:+
        "In Summary" +:+
        QUOTE +:+
        "; all other sentences from the article are assigned a label " +:+
        "of " +:+
        QUOTE +:+
        "Not in Summary" +:+
        QUOTE +:+
        ".     For each news article in the training set we compute " +:+
        "a full article representation,     as well as individual " +:+
        "sentence representations with SentenceBERT.     We pass " +:+
        "these representations to a dense layer and train/fine-tune " +:+
        "SentenceBERT using the     binary labels we extracted. This " +:+
        "results in a model that, at inference time, computes     a " +:+
        "score for each sentence in a document. Those with the " +:+
        "highest scores are extracted as     the document summary.")]
|}.

(** The [classic_extractive] adapter (lines 180-201), with its whole
    description. *)
Definition classic_extractive : SummarizationModel := {|
  name := "classic_extractive";
  load := Fn.build_classic_nlp_pipeline;
  summarize := Fn.classic_summary;
  display_name := "Classic Extractive";
  description :=
    join NL
      ["### TextRank ";
       (" TextRank is a classic graph-based ranking     algorithm " +:+
        "that computes the importance of a vertex given global " +:+
        "information     about the entire graph.     ");
       EmptyString;
       (" The basic idea is that of " +:+
        QUOTE +:+
        "voting" +:+
        QUOTE +:+
        ": when one vertex is linked to another,     it's " +:+
        "essentially casting a vote for that other vertex. The more " +:+
        "votes a vertext     has, the more important it is. " +:+
        "Additionally, a vote from an important vertex     counts " +:+
        "for more than one from a less important vertex.     So a " +:+
        "vertex's score is determined not only by the number of " +:+
        "votes it receives     but also by the importances of the " +:+
        "vertices casting the votes.     ");
       EmptyString;
       (" While the vertices in the graph can represent anything, in " +:+
        "this classic     version each vertex represents a word from " +:+
        "the document (after removing stop words).     The edges " +:+
        "between the vertices (the " +:+
        QUOTE +:+
        "votes" +:+
        QUOTE +:+
        ") are initialized as the co-occurrence     between two " +:+
        "words within a given context window size. After " +:+
        "initialization,     the PageRank algorithm (of search " +:+
        "engine fame) computes the recursive scoring.     These " +:+
        "scores are used to determine the most important words and " +:+
        "phrases in the document,     and sentences containing the " +:+
        "top phrases are extracted as a summary.")]
|}.

(** The [upgraded_classic_extractive] adapter (lines 203-216), with its whole
    description. *)
Definition upgraded_classic_extractive : SummarizationModel := {|
  name := "hybrid_extractive";
  load := Fn.build_trf_nlp_pipeline;
  summarize := Fn.sentence_summary_upgrade;
  display_name := "Hybrid Extractive";
  description :=
    join NL
      [" ### TextRank + SentenceBERT ";
       (" This hybrid approach relies on the     same basic tenents " +:+
        "of the `Classic Extractive` model but with a twist.    ");
       EmptyString;
       (" We still use TextRank to build a graph, but now each " +:+
        "vertex represents a sentence     from the document, rather " +:+
        "than a word. A numerical representation of each sentence is " +:+
        "    computed via the SentenceBERT Transformer model. The " +:+
        "edges of the graph are then initialized     as the cosine " +:+
        "similarity between two sentence representations.     The " +:+
        "PageRank algorithm computes the final importance scores for " +:+
        "each sentence in the     document. Sentences with the " +:+
        "highest scores are selected as the document summary.")]
|}.

(** The four adapters, in the order of the source. *)
Definition adapters : list SummarizationModel :=
  [abstractive; modern_extractive; classic_extractive;
   upgraded_classic_extractive].

End Registry.

(** ** Facts about the Python primitives *)

Module PyFacts.
Import Py.

Lemma split_not_nil (sep : ascii) (s : string) : split sep s ≠ [].
Proof.
  destruct s as [|c s]; simpl; [done|].
  destruct (Ascii.eqb c sep); [done|].
  destruct (split sep s); done.
Qed.

(** Every separator opens a new piece, whether or not the piece is empty. *)
Lemma length_split (sep : ascii) (s : string) :
  length (split sep s) = S (count sep s).
Proof.
  induction s as [|c s IH]; simpl; [done|].
  destruct (Ascii.eqb c sep); simpl.
  - by rewrite IH.
  - destruct (split sep s) as [|w ws] eqn:E; simpl in *; [lia | done].
Qed.

(** Joining the pieces with the separator gives the text back: [split]
    drops nothing. *)
Lemma join_split (sep : ascii) (s : string) :
  join (String sep EmptyString) (split sep s) = s.
Proof.
  induction s as [|c s IH]; simpl; [done|].
  destruct (Ascii.eqb_spec c sep) as [->|Hne].
  - pose proof (split_not_nil sep s) as Hnil.
    destruct (split sep s) as [|w ws]; [done|].
    simpl in *. by rewrite IH.
  - pose proof (split_not_nil sep s) as Hnil.
    destruct (split sep s) as [|w ws]; [done|].
    destruct ws as [|w' ws]; simpl in *; by rewrite <- IH.
Qed.

Lemma split_no_sep (sep : ascii) (s : string) :
  count sep s = 0 → split sep s = [s].
Proof.
  induction s as [|c s IH]; simpl; [done|].
  destruct (Ascii.eqb c sep); simpl; [done|].
  intros H. by rewrite IH.
Qed.

(** The comprehension [[p for p in paragraphs if p]] leaves no empty
    string. *)
Lemma filter_truthy_no_empty (l : list string) :
  EmptyString ∉ List.filter truthy l.
Proof.
  rewrite list_elem_of_In, filter_In. by intros [_ H].
Qed.

(** A non-empty text without a line feed is its own single paragraph. *)
Lemma single_paragraph (text : string) :
  count LF text = 0 → text ≠ EmptyString →
  List.filter truthy (split LF text) = [text].
Proof.
  intros H Hne. rewrite split_no_sep by done.
  destruct text; done.
Qed.

(** Cutting a text that contains a separator: the pieces before it
    followed by the pieces after it. *)
Lemma split_app_sep (sep : ascii) (a b : string) :
  split sep (a +:+ String sep b) = split sep a ++ split sep b.
Proof.
  induction a as [|c a IH]; simpl.
  - by rewrite Ascii.eqb_refl.
  - rewrite IH. destruct (Ascii.eqb c sep); [done|].
    pose proof (split_not_nil sep a) as Hnil.
    destruct (split sep a) as [|w ws]; done.
Qed.

End PyFacts.

(** ** Facts about the driver *)

Module DriverFacts.
Import Py PyFacts Driver.

Section WithModel.

Variable model : pipeline.

(** A model call extends the trace by the submitted text, whatever its
    outcome. *)
Lemma summary_text_run (x : string) (tr : trace) :
  summary_text model x tr = (answer model x, tr ++ [x]).
Proof.
  unfold answer, summary_text, bind, call_model, getitem0, getitem.
  simpl. destruct (model x) as [e|out]; [done|].
  destruct (out !! 0) as [d|]; [|done].
  unfold ret, raise. destruct (d !! "summary_text"); done.
Qed.

Lemma answer_not_out_of_fuel (x : string) : answer model x ≠ OutOfFuel.
Proof.
  unfold answer, summary_text, bind, call_model, getitem0, getitem.
  simpl. destruct (model x) as [e|out]; [done|].
  destruct (out !! 0) as [d|]; [|done].
  unfold ret, raise. destruct (d !! "summary_text"); done.
Qed.

(** What [answer] is in terms of the pipeline's output. *)
Lemma answer_Val (x s : string) (out : output) (d : gmap string string) :
  model x = inr out → out !! 0 = Some d → d !! "summary_text" = Some s →
  answer model x = Val s.
Proof.
  intros Hm Ho Hd.
  unfold answer, summary_text, bind, call_model, getitem0, getitem.
  simpl. rewrite Hm, Ho. unfold ret. by rewrite Hd.
Qed.

(** One iteration of the [while] loop. *)
Lemma while_sentences_step (fuel k : nat) (sentences summary : list string)
    (tr : trace) :
  sentences ≠ [] →
  while_sentences model (S fuel) k sentences summary tr =
  match answer model (join ". " (take k sentences)) with
  | Val s =>
      while_sentences model fuel k (drop k sentences)
        (summary ++ [s]) (tr ++ [join ". " (take k sentences)])
  | Exc e => (Exc e, tr ++ [join ". " (take k sentences)])
  | OutOfFuel => (OutOfFuel, tr ++ [join ". " (take k sentences)])
  end.
Proof.
  intros Hne. destruct sentences as [|x sentences]; [done|].
  cbn [while_sentences]. unfold bind at 1. rewrite summary_text_run.
  destruct (answer model _); done.
Qed.

Lemma while_sentences_nil (fuel k : nat) (summary : list string)
    (tr : trace) :
  while_sentences model fuel k [] summary tr = (Val summary, tr).
Proof. by destruct fuel. Qed.

(** With a segment size of zero the loop makes no progress: as long as
    the model answers the empty segment, every unit of fuel is spent on
    one more call with the empty string. *)
Lemma while_sentences_zero_size (fuel : nat) (sentences summary : list string)
    (s : string) (tr : trace) :
  sentences ≠ [] → answer model EmptyString = Val s →
  while_sentences model fuel 0 sentences summary tr =
    (OutOfFuel, tr ++ replicate fuel EmptyString).
Proof.
  intros Hne Hs. revert summary tr.
  induction fuel as [|fuel IH]; intros summary tr.
  - destruct sentences; [done|]. simpl. unfold out_of_fuel.
    by rewrite app_nil_r.
  - rewrite while_sentences_step by done.
    rewrite take_0, drop_0. cbn [join]. rewrite Hs, IH.
    by rewrite <- app_assoc.
Qed.

(** With a positive segment size every iteration shortens the list, so
    fuel equal to the number of sentence units is enough. *)
Lemma while_sentences_terminates (fuel k : nat)
    (sentences summary : list string) (tr : trace) :
  (1 ≤ k)%nat → (length sentences ≤ fuel)%nat →
  fst (while_sentences model fuel k sentences summary tr) ≠ OutOfFuel.
Proof.
  intros Hk. revert sentences summary tr.
  induction fuel as [|fuel IH]; intros sentences summary tr Hlen.
  - destruct sentences; simpl in *; [done | lia].
  - destruct sentences as [|x l] eqn:E.
    + by rewrite while_sentences_nil.
    + rewrite while_sentences_step by done.
      pose proof (answer_not_out_of_fuel (join ". " (take k (x :: l)))).
      destruct (answer model _) as [s| |]; [|done|done].
      apply IH. rewrite length_drop. simpl in *. lia.
Qed.

(** The outer [try] statement, by the outcome of the whole-document
    call. *)
Lemma abstractive_summary_cases (fuel : nat) (text : string) (tr : trace) :
  abstractive_summary model fuel text tr =
  match answer model text with
  | Exc IndexError =>
      (summary <- for_paragraphs model fuel
                    (List.filter truthy (split LF text)) [] ;;
       ret (join NL summary)) (tr ++ [text])
  | r => (r, tr ++ [text])
  end.
Proof.
  unfold abstractive_summary, try_except_IndexError.
  rewrite summary_text_run.
  destruct (answer model text) as [s|[]|]; done.
Qed.

(** The inner [try] statement, by the outcome of the paragraph call. *)
Lemma for_paragraphs_cons (fuel : nat) (p : string)
    (rest summary : list string) (tr : trace) :
  for_paragraphs model fuel (p :: rest) summary tr =
  match answer model p with
  | Val s => for_paragraphs model fuel rest (summary ++ [s]) (tr ++ [p])
  | Exc IndexError =>
      (summary <- split_further model fuel p summary ;;
       for_paragraphs model fuel rest summary) (tr ++ [p])
  | Exc e => (Exc e, tr ++ [p])
  | OutOfFuel => (OutOfFuel, tr ++ [p])
  end.
Proof.
  cbn [for_paragraphs]. unfold bind at 1, try_except_IndexError.
  unfold bind at 1. rewrite summary_text_run.
  destruct (answer model p) as [s|[]|]; try done.
Qed.

Lemma for_paragraphs_all_fit (fuel : nat) (ps sums summary : list string)
    (tr : trace) :
  Forall2 (λ p s, answer model p = Val s) ps sums →
  for_paragraphs model fuel ps summary tr = (Val (summary ++ sums), tr ++ ps).
Proof.
  intros H. revert summary tr.
  induction H as [|p s ps sums Hp _ IH]; intros summary tr.
  - simpl. unfold ret. by rewrite !app_nil_r.
  - rewrite for_paragraphs_cons, Hp, IH.
    by rewrite <- !app_assoc.
Qed.

(** C7.  When the whole-document call succeeds, that is the pipeline
    returns an output whose first dictionary has a ['summary_text'], the
    driver makes that one call and no other, and returns the text of the
    output unchanged, whatever the fuel. *)
Theorem whole_document_single_call (fuel : nat) (text s : string)
    (out : output) (d : gmap string string) (tr : trace) :
  model text = inr out → out !! 0 = Some d → d !! "summary_text" = Some s →
  abstractive_summary model fuel text tr = (Val s, tr ++ [text]).
Proof.
  intros Hm Ho Hd.
  rewrite abstractive_summary_cases.
  by rewrite (answer_Val text s out d).
Qed.

(** C1, amended.  When the whole-document call raises [IndexError] and
    every non-empty line of the document fits, the driver cuts the
    document at every line feed, drops the empty pieces, calls the model
    once per remaining piece after the whole-document call, and returns
    the summaries of the pieces joined by newlines in their order. *)
Theorem paragraph_retry_on_lines (fuel : nat) (text : string)
    (sums : list string) (tr : trace) :
  answer model text = Exc IndexError →
  Forall2 (λ p s, answer model p = Val s)
    (List.filter truthy (split LF text)) sums →
  abstractive_summary model fuel text tr =
    (Val (join NL sums), tr ++ text :: List.filter truthy (split LF text)).
Proof.
  intros Hw Hps.
  rewrite abstractive_summary_cases, Hw.
  unfold bind. rewrite (for_paragraphs_all_fit fuel _ sums) by done.
  unfold ret. simpl. by rewrite <- app_assoc.
Qed.

(** X3.  An even number of sentence units, at least two, is cut into
    exactly two segments of half the units each, and the model is called
    on each of the two. *)
Lemma even_sentence_count_two_segments (fuel k : nat) (p s1 s2 : string)
    (tr : trace) :
  count LF p = 0 →
  length (split DOT p) = 2 * k → (1 ≤ k)%nat →
  answer model p = Exc IndexError →
  answer model (join ". " (take k (split DOT p))) = Val s1 →
  answer model (join ". " (drop k (split DOT p))) = Val s2 →
  (2 ≤ fuel)%nat →
  abstractive_summary model fuel p tr =
    (Val (join NL [s1; s2]),
     tr ++ [p; p; join ". " (take k (split DOT p));
            join ". " (drop k (split DOT p))]).
Proof.
  intros Hlf Hlen Hk Hp H1 H2 Hfuel.
  assert (Hne : p ≠ EmptyString) by (intros ->; simpl in Hlen; lia).
  rewrite abstractive_summary_cases, Hp, single_paragraph by done.
  unfold bind at 1. rewrite for_paragraphs_cons, Hp.
  unfold bind at 1, split_further.
  replace (length (split DOT p) / 2) with k
    by (rewrite Hlen, Nat.mul_comm; symmetry; apply Nat.div_mul; lia).
  destruct fuel as [|[|fuel]]; [lia | lia |].
  set (l := split DOT p) in *.
  rewrite while_sentences_step, H1
    by (intros E; rewrite E in Hlen; simpl in Hlen; lia).
  assert (Hd : take k (drop k l) = drop k l)
    by (apply take_ge; rewrite length_drop; lia).
  rewrite while_sentences_step, Hd, H2
    by (intros E; apply (f_equal length) in E;
        rewrite length_drop in E; simpl in E; lia).
  replace (drop k (drop k l)) with (@nil string)
    by (symmetry; apply nil_length_inv;
        rewrite !length_drop; lia).
  rewrite while_sentences_nil. cbn [for_paragraphs]. unfold ret.
  by rewrite <- !app_assoc.
Qed.

(** C2, the divergence.  An odd number [2k+1 >= 3] of sentence units is
    cut into three segments, of [k], [k] and one unit, and the model is
    called on each of the three: the remainder is not put into the second
    segment. *)
Theorem odd_sentence_count_three_segments (fuel k : nat)
    (p s1 s2 s3 : string) (tr : trace) :
  count LF p = 0 →
  length (split DOT p) = 2 * k + 1 → (1 ≤ k)%nat →
  answer model p = Exc IndexError →
  answer model (join ". " (take k (split DOT p))) = Val s1 →
  answer model (join ". " (take k (drop k (split DOT p)))) = Val s2 →
  answer model (join ". " (drop (2 * k) (split DOT p))) = Val s3 →
  (3 ≤ fuel)%nat →
  abstractive_summary model fuel p tr =
    (Val (join NL [s1; s2; s3]),
     tr ++ [p; p; join ". " (take k (split DOT p));
            join ". " (take k (drop k (split DOT p)));
            join ". " (drop (2 * k) (split DOT p))]).
Proof.
  intros Hlf Hlen Hk Hp H1 H2 H3 Hfuel.
  assert (Hne : p ≠ EmptyString) by (intros ->; simpl in Hlen; lia).
  rewrite abstractive_summary_cases, Hp, single_paragraph by done.
  unfold bind at 1. rewrite for_paragraphs_cons, Hp.
  unfold bind at 1, split_further.
  replace (length (split DOT p) / 2) with k
    by (rewrite Hlen; apply (Nat.div_unique _ 2 k 1); lia).
  destruct fuel as [|[|[|fuel]]]; [lia | lia | lia |].
  set (l := split DOT p) in *.
  rewrite while_sentences_step, H1
    by (intros E; rewrite E in Hlen; simpl in Hlen; lia).
  rewrite while_sentences_step, H2
    by (intros E; apply (f_equal length) in E;
        rewrite length_drop in E; simpl in E; lia).
  assert (Hdd : drop k (drop k l) = drop (2 * k) l)
    by (rewrite drop_drop; f_equal; lia).
  rewrite Hdd.
  assert (Hd : take k (drop (2 * k) l) = drop (2 * k) l)
    by (apply take_ge; rewrite length_drop; lia).
  rewrite while_sentences_step, Hd, H3
    by (intros E; apply (f_equal length) in E;
        rewrite length_drop in E; simpl in E; lia).
  replace (drop k (drop (2 * k) l)) with (@nil string)
    by (symmetry; apply nil_length_inv;
        rewrite !length_drop; lia).
  rewrite while_sentences_nil. cbn [for_paragraphs]. unfold ret.
  by rewrite <- !app_assoc.
Qed.

(** C3, the divergence.  A paragraph without a period that exceeds the
    budget is one sentence unit, the segment size is zero, and when the
    model answers the empty string the loop never ends: whatever the
    fuel, it is exhausted by calls with the empty segment. *)
Theorem single_sentence_fallback_never_ends (fuel : nat) (p s : string)
    (tr : trace) :
  count LF p = 0 → count DOT p = 0 → p ≠ EmptyString →
  answer model p = Exc IndexError →
  answer model EmptyString = Val s →
  abstractive_summary model fuel p tr =
    (OutOfFuel, tr ++ [p; p] ++ replicate fuel EmptyString).
Proof.
  intros Hlf Hdot Hne Hp Hs.
  rewrite abstractive_summary_cases, Hp, single_paragraph by done.
  unfold bind at 1. rewrite for_paragraphs_cons, Hp.
  unfold bind at 1, split_further.
  rewrite split_no_sep by done. simpl length.
  change (1 / 2) with 0.
  rewrite (while_sentences_zero_size fuel [p] [] s) by done.
  by rewrite <- !app_assoc.
Qed.

(** *** Where an [IndexError] can leave the driver *)

Lemma segment_of_drop (k j : nat) (l : list string) :
  Aux.segment_of k (drop k l) j = Aux.segment_of k l (S j).
Proof.
  unfold Aux.segment_of. rewrite drop_drop.
  by replace (k + j * k) with (S j * k) by lia.
Qed.

Lemma map_segment_of_drop (k n : nat) (l : list string) :
  map (Aux.segment_of k (drop k l)) (seq 0 n) =
  map (Aux.segment_of k l) (seq 1 n).
Proof.
  rewrite <- seq_shift, map_map. apply map_ext.
  intros j. apply segment_of_drop.
Qed.

Lemma segment_of_0 (k : nat) (l : list string) :
  Aux.segment_of k l 0 = join ". " (take k l).
Proof. unfold Aux.segment_of. simpl. by rewrite drop_0. Qed.

(** The loop raises exactly when some segment is reached whose call
    raises, all earlier segments having been answered. *)
Lemma while_sentences_raises_inv (fuel k : nat) (l acc : list string)
    (tr tr' : trace) (e : exn) :
  while_sentences model fuel k l acc tr = (Exc e, tr') →
  ∃ i : nat,
    (i < fuel)%nat ∧ drop (i * k) l ≠ [] ∧
    (∀ j, (j < i)%nat → ∃ s, answer model (Aux.segment_of k l j) = Val s) ∧
    answer model (Aux.segment_of k l i) = Exc e ∧
    tr' = tr ++ map (Aux.segment_of k l) (seq 0 (S i)).
Proof.
  revert l acc tr. induction fuel as [|fuel IH]; intros l acc tr.
  - destruct l; simpl; unfold ret, out_of_fuel; intros [=].
  - destruct (decide (l = [])) as [->|Hne].
    { rewrite while_sentences_nil. intros [=]. }
    rewrite while_sentences_step by done.
    destruct (answer model (join ". " (take k l))) as [s|e0|] eqn:Ea.
    + intros (i & Hi & Hd & Hj & Hans & ->)%IH.
      exists (S i). split; [lia|]. split.
      { rewrite drop_drop in Hd.
        by replace (S i * k) with (k + i * k) by lia. }
      split.
      { intros [|j] Hlt.
        - exists s. by rewrite segment_of_0.
        - rewrite <- segment_of_drop. apply Hj. lia. }
      split; [by rewrite <- segment_of_drop|].
      rewrite <- app_assoc. f_equal.
      rewrite map_segment_of_drop.
      change (seq 0 (S (S i))) with (0 :: seq 1 (S i)).
      cbn [map]. by rewrite segment_of_0.
    + intros [= -> <-]. exists 0. split; [lia|]. split; [by rewrite drop_0|].
      split; [intros j Hj; lia|]. rewrite segment_of_0. done.
    + intros [=].
Qed.

Lemma while_sentences_raises (fuel k i : nat) (l acc : list string)
    (tr : trace) (e : exn) :
  (i < fuel)%nat → drop (i * k) l ≠ [] →
  (∀ j, (j < i)%nat → ∃ s, answer model (Aux.segment_of k l j) = Val s) →
  answer model (Aux.segment_of k l i) = Exc e →
  while_sentences model fuel k l acc tr =
    (Exc e, tr ++ map (Aux.segment_of k l) (seq 0 (S i))).
Proof.
  revert fuel l acc tr.
  induction i as [|i IH]; intros fuel l acc tr Hi Hd Hj Hans.
  - destruct fuel as [|fuel]; [lia|].
    rewrite drop_0 in Hd. rewrite segment_of_0 in Hans.
    rewrite while_sentences_step, Hans by done.
    cbn [seq map]. by rewrite segment_of_0.
  - destruct fuel as [|fuel]; [lia|].
    assert (Hne : l ≠ []) by (intros ->; by rewrite drop_nil in Hd).
    destruct (Hj 0) as [s Hs]; [lia|]. rewrite segment_of_0 in Hs.
    rewrite while_sentences_step, Hs by done.
    rewrite (IH fuel (drop k l)).
    + rewrite <- app_assoc. f_equal. rewrite map_segment_of_drop.
      change (seq 0 (S (S i))) with (0 :: seq 1 (S i)).
      cbn [map]. by rewrite segment_of_0.
    + lia.
    + rewrite drop_drop. by replace (k + i * k) with (S i * k) by lia.
    + intros j Hlt. rewrite segment_of_drop. apply Hj. lia.
    + by rewrite segment_of_drop.
Qed.

Lemma for_paragraphs_raises_inv (fuel : nat) (ps acc : list string)
    (tr tr' : trace) :
  for_paragraphs model fuel ps acc tr = (Exc IndexError, tr') →
  ∃ (ps1 : list string) (p : string) (ps2 acc1 : list string) (tr1 : trace),
    ps = ps1 ++ p :: ps2 ∧
    for_paragraphs model fuel ps1 acc tr = (Val acc1, tr1) ∧
    answer model p = Exc IndexError ∧
    split_further model fuel p acc1 (tr1 ++ [p]) = (Exc IndexError, tr').
Proof.
  revert acc tr. induction ps as [|p0 rest IH]; intros acc tr.
  - simpl. unfold ret. intros [=].
  - rewrite for_paragraphs_cons.
    destruct (answer model p0) as [s|[|key|what]|] eqn:Ea;
      try (intros [=]; fail).
    + intros (ps1 & p & ps2 & acc1 & tr1 & -> & Hpre & Hp & Hsf)%IH.
      exists (p0 :: ps1), p, ps2, acc1, tr1. split; [done|].
      split; [|done]. by rewrite for_paragraphs_cons, Ea.
    + unfold bind.
      destruct (split_further model fuel p0 acc (tr ++ [p0]))
        as [[acc'|e'|] tr2] eqn:Es; [| |intros [=]].
      * intros (ps1 & p & ps2 & acc1 & tr1 & -> & Hpre & Hp & Hsf)%IH.
        exists (p0 :: ps1), p, ps2, acc1, tr1. split; [done|].
        split; [|done].
        rewrite for_paragraphs_cons, Ea. unfold bind. by rewrite Es.
      * intros [= -> <-]. by exists [], p0, rest, acc, tr.
Qed.

Lemma for_paragraphs_app_Val (fuel : nat) (ps1 ps2 acc acc1 : list string)
    (tr tr1 : trace) :
  for_paragraphs model fuel ps1 acc tr = (Val acc1, tr1) →
  for_paragraphs model fuel (ps1 ++ ps2) acc tr =
  for_paragraphs model fuel ps2 acc1 tr1.
Proof.
  revert acc tr. induction ps1 as [|p0 ps1 IH]; intros acc tr.
  - simpl. unfold ret. by intros [= -> ->].
  - rewrite <- app_comm_cons, !for_paragraphs_cons.
    destruct (answer model p0) as [s|[|key|what]|]; try (intros [=]; fail).
    + apply IH.
    + unfold bind.
      destruct (split_further model fuel p0 acc (tr ++ [p0]))
        as [[acc'|e'|] tr2]; try (intros [=]; fail).
      apply IH.
Qed.

(** C6.  The run of the driver ends with [IndexError] exactly when the
    whole-document call raised it, some paragraph was reached (the earlier
    ones having been summarized) whose call raised it again, and within
    that paragraph's sentence fallback a segment was reached whose call
    raised it: that segment call is the last call of the run.  An
    [IndexError] of the whole-document call or of a paragraph call never
    ends the run. *)
Theorem length_exceeded_surfaces_from_segments_only (fuel : nat)
    (text : string) (tr tr' : trace) :
  abstractive_summary model fuel text tr = (Exc IndexError, tr') ↔
  answer model text = Exc IndexError ∧
  ∃ (ps1 : list string) (p : string) (ps2 acc : list string)
    (tr1 : trace) (i : nat),
    List.filter truthy (split LF text) = ps1 ++ p :: ps2 ∧
    for_paragraphs model fuel ps1 [] (tr ++ [text]) = (Val acc, tr1) ∧
    answer model p = Exc IndexError ∧
    (i < fuel)%nat ∧
    drop (i * (length (split DOT p) / 2)) (split DOT p) ≠ [] ∧
    (∀ j, (j < i)%nat → ∃ s, answer model (Aux.segment p j) = Val s) ∧
    answer model (Aux.segment p i) = Exc IndexError ∧
    tr' = tr1 ++ p :: map (Aux.segment p) (seq 0 (S i)).
Proof.
  rewrite abstractive_summary_cases. split.
  - destruct (answer model text) as [s|[|key|what]|] eqn:Ea;
      try (intros [=]; fail).
    unfold bind.
    destruct (for_paragraphs model fuel _ [] (tr ++ [text]))
      as [[a|e|] t] eqn:E; unfold ret; try (intros [=]; fail).
    intros [= -> <-]. split; [done|].
    apply for_paragraphs_raises_inv in E
      as (ps1 & p & ps2 & acc1 & tr1 & Hps & Hpre & Hp & Hsf).
    apply while_sentences_raises_inv in Hsf
      as (i & Hi & Hd & Hj & Hans & ->).
    exists ps1, p, ps2, acc1, tr1, i.
    rewrite <- app_assoc. done.
  - intros (Hw & ps1 & p & ps2 & acc & tr1 & i
            & Hps & Hpre & Hp & Hi & Hd & Hj & Hans & ->).
    rewrite Hw, Hps. unfold bind.
    rewrite (for_paragraphs_app_Val _ _ _ _ _ _ _ Hpre).
    rewrite for_paragraphs_cons, Hp. unfold bind, split_further.
    rewrite (while_sentences_raises fuel _ i _ _ _ IndexError) by done.
    by rewrite <- app_assoc.
Qed.

(** Where empty sentence units come from: every period adds one unit, a
    final period leaves an empty last unit and two periods in a row an
    empty unit between them; the segment size is half of that full count,
    and the first segment joins the first units of the unfiltered list.
    At the paragraph level, in contrast, no empty piece is left. *)
Lemma empty_sentence_fragments_are_kept (fuel : nat) (p q : string)
    (summary : list string) (tr : trace) :
  length (split DOT p) = S (count DOT p) ∧
  split DOT (p +:+ ".") = split DOT p ++ [EmptyString] ∧
  split DOT (p +:+ ".." +:+ q) = split DOT p ++ EmptyString :: split DOT q ∧
  split_further model (S fuel) p summary tr =
    (s <- summary_text model
            (join ". " (take (S (count DOT p) / 2) (split DOT p))) ;;
     while_sentences model fuel (S (count DOT p) / 2)
       (drop (S (count DOT p) / 2) (split DOT p)) (summary ++ [s])) tr ∧
  EmptyString ∉ List.filter truthy (split LF p).
Proof.
  split; [apply length_split|].
  split; [apply (split_app_sep DOT p EmptyString)|].
  split.
  { change (".." +:+ q) with (String DOT (String DOT q)).
    by rewrite (split_app_sep DOT p (String DOT q)). }
  split; [|apply filter_truthy_no_empty].
  unfold split_further. rewrite length_split.
  pose proof (split_not_nil DOT p) as Hne.
  destruct (split DOT p) as [|x l]; done.
Qed.

(** C9, amended.  On the empty document the driver makes exactly one
    model call.  When that call raises [IndexError] there is no paragraph
    left after the empty pieces are dropped and the result is the empty
    string; when it succeeds the result is the model's text; any other
    failure of the call is the outcome. *)
Theorem empty_document_outcome (fuel : nat) (tr : trace) :
  abstractive_summary model fuel EmptyString tr =
    (match answer model EmptyString with
     | Exc IndexError => Val EmptyString
     | r => r
     end, tr ++ [EmptyString]).
Proof.
  rewrite abstractive_summary_cases.
  destruct (answer model EmptyString) as [s|[]|]; done.
Qed.

(** Every statement of the driver lets a failure other than
    [IndexError] through; the property is preserved by sequencing, by the
    [try] statement and by both loops. *)
Section Propagation.

Lemma propagates_ret {A} (a : A) : Aux.propagates model (ret a).
Proof.
  intros tr tr' r [= <- <-]. exists []. split; [by rewrite app_nil_r|].
  intros x e Hx. by apply elem_of_nil in Hx.
Qed.

Lemma propagates_summary_text (x : string) :
  Aux.propagates model (summary_text model x).
Proof.
  intros tr tr' r. rewrite summary_text_run. intros [= <- <-].
  exists [x]. split; [done|].
  intros y e ->%list_elem_of_singleton Hans Hne. done.
Qed.

Lemma propagates_bind {A B} (m : M A) (k : A → M B) :
  Aux.propagates model m → (∀ a, Aux.propagates model (k a)) →
  Aux.propagates model (bind m k).
Proof.
  intros Hm Hk tr tr' r. unfold bind.
  destruct (m tr) as [r1 tr1] eqn:E1.
  destruct (Hm _ _ _ E1) as (c1 & -> & H1).
  destruct r1 as [a|e1|].
  - intros E2. destruct (Hk a _ _ _ E2) as (c2 & -> & H2).
    exists (c1 ++ c2). split; [by rewrite app_assoc|].
    intros x e [Hx|Hx]%elem_of_app Hans Hne.
    + by destruct (H1 x e Hx Hans Hne).
    + destruct (H2 x e Hx Hans Hne) as [-> Hl]. split; [done|].
      destruct c2 as [|y c2]; [done|]. by rewrite last_app_cons.
  - intros [= <- <-]. exists c1. split; [done|].
    intros x e Hx Hans Hne.
    destruct (H1 x e Hx Hans Hne) as [[= ->] Hl]. done.
  - intros [= <- <-]. exists c1. split; [done|].
    intros x e Hx Hans Hne. by destruct (H1 x e Hx Hans Hne).
Qed.

Lemma propagates_try {A} (body handler : M A) :
  Aux.propagates model body → Aux.propagates model handler →
  Aux.propagates model (try_except_IndexError body handler).
Proof.
  intros Hb Hh tr tr' r. unfold try_except_IndexError.
  destruct (body tr) as [r1 tr1] eqn:E1.
  destruct (Hb _ _ _ E1) as (c1 & -> & H1).
  destruct r1 as [a|[|key|what]|];
    try (intros [= <- <-]; exists c1; split; [done|];
         intros x e Hx Hans Hne; by apply H1).
  intros E2. destruct (Hh _ _ _ E2) as (c2 & -> & H2).
  exists (c1 ++ c2). split; [by rewrite app_assoc|].
  intros x e [Hx|Hx]%elem_of_app Hans Hne.
  - destruct (H1 x e Hx Hans Hne) as [[= <-] _]. done.
  - destruct (H2 x e Hx Hans Hne) as [-> Hl]. split; [done|].
    destruct c2 as [|y c2]; [done|]. by rewrite last_app_cons.
Qed.

Lemma propagates_while_sentences (fuel k : nat)
    (sentences summary : list string) :
  Aux.propagates model (while_sentences model fuel k sentences summary).
Proof.
  revert sentences summary.
  induction fuel as [|fuel IH]; intros [|x l] summary;
    try apply propagates_ret.
  - intros tr tr' r [= <- <-]. exists []. split; [by rewrite app_nil_r|].
    intros y e Hy. by apply elem_of_nil in Hy.
  - cbn [while_sentences]. apply propagates_bind.
    + apply propagates_summary_text.
    + intros s. apply IH.
Qed.

Lemma propagates_for_paragraphs (fuel : nat) (ps summary : list string) :
  Aux.propagates model (for_paragraphs model fuel ps summary).
Proof.
  revert summary. induction ps as [|p ps IH]; intros summary.
  - apply propagates_ret.
  - cbn [for_paragraphs]. apply propagates_bind; [|done].
    apply propagates_try.
    + apply propagates_bind; [apply propagates_summary_text|].
      intros s. apply propagates_ret.
    + apply propagates_while_sentences.
Qed.

Lemma propagates_abstractive_summary (fuel : nat) (text : string) :
  Aux.propagates model (abstractive_summary model fuel text).
Proof.
  apply propagates_try; [apply propagates_summary_text|].
  apply propagates_bind; [apply propagates_for_paragraphs|].
  intros summary. apply propagates_ret.
Qed.

End Propagation.

(** C8.  Every failure of a model call other than [IndexError] reaches
    the caller: if, in a run of the driver, a submitted text makes the
    model call fail with an exception that is not [IndexError], then the
    run ends with that exception and that call is the last one made. *)
Theorem other_failures_reach_the_caller (fuel : nat) (text x : string)
    (r : res string) (tr' : trace) (e : exn) :
  abstractive_summary model fuel text [] = (r, tr') →
  x ∈ tr' → answer model x = Exc e → e ≠ IndexError →
  r = Exc e ∧ last tr' = Some x.
Proof.
  intros Hrun Hx Hans Hne.
  destruct (propagates_abstractive_summary fuel text _ _ _ Hrun)
    as (calls & -> & H).
  simpl in *. by apply H.
Qed.

(** The part of C3 that holds: when every paragraph that reaches the
    sentence fallback contains a period, so that the segment size is
    positive, fuel equal to the largest number of sentence units is
    enough and the driver returns or raises. *)
Lemma for_paragraphs_terminates (fuel : nat) (ps summary : list string)
    (tr : trace) :
  (∀ p, p ∈ ps → answer model p = Exc IndexError →
        (1 ≤ count DOT p)%nat ∧ (S (count DOT p) ≤ fuel)%nat) →
  fst (for_paragraphs model fuel ps summary tr) ≠ OutOfFuel.
Proof.
  revert summary tr. induction ps as [|p ps IH]; intros summary tr Hps.
  - done.
  - rewrite for_paragraphs_cons.
    pose proof (answer_not_out_of_fuel p) as Hp.
    destruct (answer model p) as [s|[|key|what]|] eqn:Ea; try done.
    + apply IH. intros p' Hin. apply Hps. by right.
    + destruct (Hps p) as [Hdot Hfuel]; [by left|done|].
      unfold bind, split_further.
      pose proof (while_sentences_terminates fuel
                    (length (split DOT p) / 2) (split DOT p) summary
                    (tr ++ [p])) as Hw.
      rewrite length_split in Hw |- *.
      assert (Hk : (1 ≤ S (count DOT p) / 2)%nat)
        by (apply (Nat.div_le_lower_bound _ 2); lia).
      specialize (Hw Hk Hfuel).
      destruct (while_sentences model fuel _ _ _ _) as [[acc|e|] tr1];
        try done.
      apply IH. intros p' Hin. apply Hps. by right.
Qed.

Lemma abstractive_summary_terminates (fuel : nat) (text : string)
    (tr : trace) :
  (∀ p, p ∈ List.filter truthy (split LF text) →
        answer model p = Exc IndexError →
        (1 ≤ count DOT p)%nat ∧ (S (count DOT p) ≤ fuel)%nat) →
  fst (abstractive_summary model fuel text tr) ≠ OutOfFuel.
Proof.
  intros Hps. rewrite abstractive_summary_cases.
  pose proof (answer_not_out_of_fuel text) as Hp.
  destruct (answer model text) as [s|[|key|what]|]; try done.
  unfold bind.
  pose proof (for_paragraphs_terminates fuel _ [] (tr ++ [text]) Hps) as H.
  destruct (for_paragraphs model fuel _ _ _) as [[acc|e|] tr1]; done.
Qed.

End WithModel.

(** A segment that still exceeds the budget: the [IndexError] of its
    call ends the run. *)
Example segment_too_long_raises :
  abstractive_summary (budget_model 2) 5 "abc.def" [] =
    (Exc IndexError, ["abc.def"; "abc.def"; "abc"]).
Proof. reflexivity. Qed.

(** Two periods in a row: the empty unit is counted, four units give a
    segment size of two, and the first segment ends with the separator
    that precedes the empty unit. *)
Example empty_unit_inside_a_segment :
  abstractive_summary (budget_model 5) 5 "a..b.c" [] =
    (Val (join NL ["<a. >"; "<b. c>"]),
     ["a..b.c"; "a..b.c"; "a. "; "b. c"]).
Proof. reflexivity. Qed.

(** A final period: the empty last unit becomes a segment of its own and
    the empty string is submitted to the model. *)
Example trailing_empty_unit_is_submitted :
  abstractive_summary (budget_model 3) 5 "A.B." [] =
    (Val (join NL ["<A>"; "<B>"; "<>"]),
     ["A.B."; "A.B."; "A"; "B"; EmptyString]).
Proof. reflexivity. Qed.

(** A runtime failure on the second of three lines: it is the outcome,
    and the third line is never submitted. *)
Lemma other_failures_reach_the_caller_witness :
  fst (abstractive_summary Aux.fragile_model 0 (join NL ["a"; "b"; "c"]) [])
    = Exc (OtherError "RuntimeError") ∧
  last (snd (abstractive_summary Aux.fragile_model 0
               (join NL ["a"; "b"; "c"]) []))
    = Some "b".
Proof.
  apply (other_failures_reach_the_caller Aux.fragile_model 0
           (join NL ["a"; "b"; "c"]) "b").
  - apply surjective_pairing.
  - vm_compute. apply list_elem_of_In. simpl. tauto.
  - reflexivity.
  - discriminate.
Defined.

(** C9 as worded fails.  A model runtime that rejects the empty string
    with an exception other than [IndexError] makes the driver raise on
    the empty document, after its single call; and with a model that
    answers the empty string, the summary of the empty document is that
    answer, which is not empty. *)
Lemma empty_document_can_raise :
  abstractive_summary Aux.rejecting_model 0 EmptyString [] =
    (Exc (OtherError "ValueError"), [EmptyString]) ∧
  abstractive_summary (budget_model 4) 0 EmptyString [] =
    (Val "<>", [EmptyString]) ∧
  ¬ Spec.empty_document_never_raises.
Proof.
  split; [reflexivity|]. split; [reflexivity|].
  intros H. destruct (H Aux.rejecting_model 0) as (s & tr & Hrun).
  vm_compute in Hrun. discriminate Hrun.
Qed.

(** Ten sentence units are cut into five and five. *)
Lemma ten_sentences_five_and_five :
  abstractive_summary (budget_model 18) 2 "a.b.c.d.e.f.g.h.i.j" [] =
    (Val (join NL ["<a. b. c. d. e>"; "<f. g. h. i. j>"]),
     ["a.b.c.d.e.f.g.h.i.j"; "a.b.c.d.e.f.g.h.i.j";
      "a. b. c. d. e"; "f. g. h. i. j"]).
Proof.
  apply (even_sentence_count_two_segments (budget_model 18) 2 5
           "a.b.c.d.e.f.g.h.i.j" "<a. b. c. d. e>" "<f. g. h. i. j>" []);
    first [reflexivity | lia].
Defined.

(** Three sentence units: three segments and three calls. *)
Lemma odd_sentence_count_three_segments_witness :
  abstractive_summary (budget_model 4) 3 "a.b.c" [] =
    (Val (join NL ["<a>"; "<b>"; "<c>"]),
     ["a.b.c"; "a.b.c"; "a"; "b"; "c"]).
Proof.
  apply (odd_sentence_count_three_segments (budget_model 4) 3 1
           "a.b.c" "<a>" "<b>" "<c>" []);
    first [reflexivity | lia].
Defined.

(** A paragraph of five characters without a period, budget four. *)
Lemma single_sentence_fallback_never_ends_witness :
  abstractive_summary (budget_model 4) 7 "abcde" [] =
    (OutOfFuel, ["abcde"; "abcde"] ++ replicate 7 EmptyString).
Proof.
  apply (single_sentence_fallback_never_ends (budget_model 4) 7
           "abcde" "<>" []);
    first [reflexivity | discriminate].
Defined.

(** The scenario of a document that fits: one call, the model's text. *)
Lemma whole_document_single_call_witness :
  abstractive_summary (budget_model 100) 0
    "Sentence one. Sentence two. Sentence three." [] =
    (Val "<Sentence one. Sentence two. Sentence three.>",
     ["Sentence one. Sentence two. Sentence three."]).
Proof.
  apply (whole_document_single_call (budget_model 100) 0
           "Sentence one. Sentence two. Sentence three."
           "<Sentence one. Sentence two. Sentence three.>"
           [ {[ "summary_text" :=
                  "<Sentence one. Sentence two. Sentence three.>" ]} ]
           {[ "summary_text" :=
                  "<Sentence one. Sentence two. Sentence three.>" ]} []);
    reflexivity.
Defined.

(** The scenario of two paragraphs separated by a blank line. *)
Lemma paragraph_retry_on_lines_witness :
  abstractive_summary (budget_model 6) 0
    (join NL ["Para A"; EmptyString; "Para B"]) [] =
    (Val (join NL ["<Para A>"; "<Para B>"]),
     [join NL ["Para A"; EmptyString; "Para B"]; "Para A"; "Para B"]).
Proof.
  apply (paragraph_retry_on_lines (budget_model 6) 0
           (join NL ["Para A"; EmptyString; "Para B"])
           ["<Para A>"; "<Para B>"] []).
  - reflexivity.
  - repeat constructor.
Defined.

(** C1 as worded fails.  In the document ["a\nb\n\nc"], with a budget
    of three characters, the whole document exceeds the budget and both
    blank-line paragraphs, ["a\nb"] and ["c"], fit; the driver nevertheless
    summarizes each of the three lines on its own, so the result is not
    the join of the two paragraph summaries. *)
Lemma paragraph_retry_on_blank_lines_fails :
  answer (budget_model 3) Aux.two_line_paragraph_document = Exc IndexError ∧
  Forall2 (λ p s, answer (budget_model 3) p = Val s)
    (Spec.paragraphs Aux.two_line_paragraph_document)
    [ "<" +:+ join NL ["a"; "b"] +:+ ">"; "<c>" ] ∧
  abstractive_summary (budget_model 3) 0 Aux.two_line_paragraph_document [] =
    (Val (join NL ["<a>"; "<b>"; "<c>"]),
     [Aux.two_line_paragraph_document; "a"; "b"; "c"]) ∧
  ¬ Spec.paragraph_retry_on_blank_lines.
Proof.
  assert (Hw : answer (budget_model 3) Aux.two_line_paragraph_document
               = Exc IndexError) by reflexivity.
  assert (Hps : Forall2 (λ p s, answer (budget_model 3) p = Val s)
                  (Spec.paragraphs Aux.two_line_paragraph_document)
                  [ "<" +:+ join NL ["a"; "b"] +:+ ">"; "<c>" ])
    by (repeat constructor).
  split; [done|]. split; [done|]. split; [reflexivity|].
  intros H.
  specialize (H (budget_model 3) 0 Aux.two_line_paragraph_document _ Hw Hps).
  vm_compute in H. discriminate H.
Qed.

End DriverFacts.

(** ** Facts about the adapter class *)

Module AdapterFacts.
Import Adapter.

(** The generated equality holds exactly when all five fields agree. *)
Lemma eq_fieldwise (a b : SummarizationModel) :
  __eq__ a b = true ↔
  name a = name b ∧ load a = load b ∧ summarize a = summarize b ∧
  display_name a = display_name b ∧ description a = description b.
Proof.
  unfold __eq__. rewrite bool_decide_eq_true. split.
  - by intros [= -> -> -> -> ->].
  - by intros (-> & -> & -> & -> & ->).
Qed.

(** C4, amended.  Two instances with the same [name] compare equal
    exactly when their [load], [summarize], [display_name] and
    [description] are equal as well: the generated equality looks at
    every field. *)
Theorem same_name_equal_iff_other_fields_equal (a b : SummarizationModel) :
  name a = name b →
  (__eq__ a b = true ↔
   load a = load b ∧ summarize a = summarize b ∧
   display_name a = display_name b ∧ description a = description b).
Proof.
  intros Hn. rewrite eq_fieldwise. tauto.
Qed.

Lemma same_name_equal_iff_other_fields_equal_witness :
  __eq__ abstractive Aux.abstractive_renamed = true ↔
  load abstractive = load Aux.abstractive_renamed ∧
  summarize abstractive = summarize Aux.abstractive_renamed ∧
  display_name abstractive = display_name Aux.abstractive_renamed ∧
  description abstractive = description Aux.abstractive_renamed.
Proof.
  apply (same_name_equal_iff_other_fields_equal
           abstractive Aux.abstractive_renamed).
  reflexivity.
Defined.

(** C4 as worded fails.  The adapter rebuilt with another display name
    has the same name and does not compare equal. *)
Lemma same_name_compares_equal_fails :
  name abstractive = name Aux.abstractive_renamed ∧
  __eq__ abstractive Aux.abstractive_renamed = false ∧
  ¬ Spec.same_name_compares_equal.
Proof.
  split; [reflexivity|]. split; [reflexivity|].
  intros H.
  specialize (H abstractive Aux.abstractive_renamed eq_refl).
  vm_compute in H. discriminate H.
Qed.

(** The decision of [@attr.s()] for this class: unhashable. *)
Lemma decorated_class_is_unhashable :
  decorated_hash_attribute true false None = AttributeNone.
Proof. reflexivity. Qed.

(** The method of the body does depend on the name alone; it is the
    decorator that discards it. *)
Lemma body_method_depends_on_name_only (a b : SummarizationModel) :
  __hash__ a = __hash__ b ↔ name a = name b.
Proof. done. Qed.

(** C5, the divergence.  For every adapter the built-in [hash] raises
    [TypeError]: [@attr.s()] generates the equality of a class that is not
    frozen, so it stores [None] in place of the [__hash__] of the body and
    the instances are unhashable; no hash, by name or otherwise, exists.
    Had the decorator been told to leave the method alone ([hash=False]),
    [hash] would raise as well, because the method returns the name, a
    [str], where an [int] is required. *)
Theorem hash_raises_for_every_adapter (a : SummarizationModel) :
  hash a = TypeError "unhashable type: 'SummarizationModel'" ∧
  hash_with true false (Some false) a =
    TypeError "__hash__ method should return an integer".
Proof. split; reflexivity. Qed.

(** The adapter [abstractive] and its rebuilt copy: neither can be
    hashed. *)
Example hash_of_abstractive_raises :
  hash abstractive = TypeError "unhashable type: 'SummarizationModel'" ∧
  hash Aux.abstractive_renamed =
    TypeError "unhashable type: 'SummarizationModel'".
Proof. split; reflexivity. Qed.

(** X13.  No two of the four adapters of the module share a name, so among
    them the name is a key: two of them compare equal exactly when their
    names are equal. *)
Theorem name_is_a_key_of_the_adapters (a b : SummarizationModel) :
  a ∈ Registry.adapters → b ∈ Registry.adapters →
  (name a = name b → a = b) ∧
  (__eq__ a b = true ↔ name a = name b).
Proof.
  intros Ha Hb.
  assert (Hkey : name a = name b → a = b).
  { apply list_elem_of_In in Ha, Hb.
    destruct Ha as [<-|[<-|[<-|[<-|[]]]]], Hb as [<-|[<-|[<-|[<-|[]]]]];
      intros Hn; first [reflexivity | discriminate Hn]. }
  split; [done|]. split.
  - by intros (Hn & _)%eq_fieldwise.
  - intros Hn. rewrite (Hkey Hn). apply eq_fieldwise. done.
Qed.

Lemma name_is_a_key_of_the_adapters_witness :
  (name Registry.abstractive = name Registry.upgraded_classic_extractive →
   Registry.abstractive = Registry.upgraded_classic_extractive) ∧
  (__eq__ Registry.abstractive Registry.upgraded_classic_extractive = true ↔
   name Registry.abstractive = name Registry.upgraded_classic_extractive).
Proof.
  apply (name_is_a_key_of_the_adapters
           Registry.abstractive Registry.upgraded_classic_extractive);
    apply list_elem_of_In; simpl; tauto.
Defined.

End AdapterFacts.

(** ** Properties of whole runs of the driver *)

Module DriverProps.
Import Py PyFacts Driver DriverFacts Runs.

Section WithModel.

Variable model : pipeline.

(** *** The trace and the accumulator are only extended *)

Lemma prepend_nil (r : res (list string)) : prepend [] r = r.
Proof. by destruct r. Qed.

Lemma prepend_prepend (a b : list string) (r : res (list string)) :
  prepend a (prepend b r) = prepend (a ++ b) r.
Proof. destruct r; simpl; [by rewrite app_assoc | done | done]. Qed.

Lemma while_sentences_frame (fuel k : nat) (l acc : list string)
    (tr : trace) :
  while_sentences model fuel k l acc tr =
    (prepend acc (fst (while_sentences model fuel k l [] [])),
     tr ++ snd (while_sentences model fuel k l [] [])).
Proof.
  revert l acc tr. induction fuel as [|fuel IH]; intros l acc tr.
  - destruct l; simpl; by rewrite !app_nil_r.
  - destruct (decide (l = [])) as [->|Hne].
    { rewrite !while_sentences_nil. simpl. by rewrite !app_nil_r. }
    rewrite !(while_sentences_step model fuel k l) by done.
    destruct (answer model (join ". " (take k l))) as [s|e|]; simpl;
      try done.
    rewrite (IH _ (acc ++ [s]) (tr ++ _)), (IH _ [s] [_]).
    simpl. by rewrite prepend_prepend, <- !app_assoc.
Qed.

Lemma for_paragraphs_frame (fuel : nat) (ps acc : list string)
    (tr : trace) :
  for_paragraphs model fuel ps acc tr =
    (prepend acc (fst (for_paragraphs model fuel ps [] [])),
     tr ++ snd (for_paragraphs model fuel ps [] [])).
Proof.
  revert acc tr. induction ps as [|p ps IH]; intros acc tr.
  - simpl. by rewrite !app_nil_r.
  - rewrite !for_paragraphs_cons.
    destruct (answer model p) as [s|[|key|what]|]; simpl; try done.
    + rewrite (IH (acc ++ [s]) (tr ++ _)), (IH [s] [_]).
      simpl. by rewrite prepend_prepend, <- !app_assoc.
    + unfold bind, split_further.
      rewrite (while_sentences_frame _ _ _ acc (tr ++ [p])).
      rewrite (while_sentences_frame _ _ _ [] [p]).
      destruct (while_sentences model fuel _ _ [] []) as [[l|e|] c];
        simpl; try (by rewrite <- !app_assoc).
      rewrite (IH (acc ++ l) ((tr ++ [p]) ++ c)), (IH l (p :: c)).
      simpl. by rewrite prepend_prepend, <- !app_assoc.
Qed.

Lemma abstractive_summary_frame (fuel : nat) (text : string) (tr : trace) :
  abstractive_summary model fuel text tr =
    (fst (abstractive_summary model fuel text []),
     tr ++ snd (abstractive_summary model fuel text [])).
Proof.
  rewrite !abstractive_summary_cases.
  destruct (answer model text) as [s|[|key|what]|]; simpl; try done.
  unfold bind.
  rewrite (for_paragraphs_frame _ _ [] (tr ++ [text])).
  rewrite (for_paragraphs_frame _ _ [] [text]).
  destruct (for_paragraphs model fuel _ [] []) as [[l|e|] c];
    simpl; by rewrite <- !app_assoc.
Qed.

(** *** Edge cases of the whole-document call *)

(** X11.  When the first dictionary of the output for the whole document has
    no ['summary_text'], the lookup raises [KeyError]; the [except
    IndexError] clause does not catch it, so the driver raises it after
    this single call and attempts no fallback. *)
Theorem missing_summary_text_key (fuel : nat) (text : string)
    (d : gmap string string) (rest : output) (tr : trace) :
  model text = inr (d :: rest) → d !! "summary_text" = None →
  abstractive_summary model fuel text tr =
    (Exc (KeyError "summary_text"), tr ++ [text]).
Proof.
  intros Hm Hd. rewrite abstractive_summary_cases.
  assert (Ha : answer model text = Exc (KeyError "summary_text")).
  { unfold answer, summary_text, bind, call_model, getitem0, getitem.
    simpl. rewrite Hm. simpl. unfold ret. by rewrite Hd. }
  by rewrite Ha.
Qed.

Lemma count_le_length (c : ascii) (s : string) :
  (count c s ≤ String.length s)%nat.
Proof.
  induction s as [|c' s IH]; simpl; [done|].
  destruct (Ascii.eqb c' c); lia.
Qed.

Lemma only_line_feeds_no_paragraph (text : string) :
  count LF text = String.length text →
  List.filter truthy (split LF text) = [].
Proof.
  induction text as [|c s IH]; simpl; [done|].
  pose proof (count_le_length LF s).
  destruct (Ascii.eqb c LF); simpl; [|lia].
  intros H'. apply IH. lia.
Qed.

(** X12.  A document that consists of line feeds only and exceeds the
    budget has no paragraph left after the empty pieces are dropped: the
    driver returns the empty string after the single whole-document
    call. *)
Theorem blank_document_gives_empty_summary (fuel : nat) (text : string)
    (tr : trace) :
  count LF text = String.length text →
  answer model text = Exc IndexError →
  abstractive_summary model fuel text tr = (Val EmptyString, tr ++ [text]).
Proof.
  intros Hblank Ha.
  rewrite abstractive_summary_cases, Ha, only_line_feeds_no_paragraph
    by done.
  done.
Qed.

(** X8.  A non-empty document of a single line that exceeds the budget is
    its own only paragraph: the driver submits the very same text a second
    time, and that call fails again, before any sentence segment is
    tried. *)
Theorem one_line_document_is_submitted_twice (fuel : nat) (text : string)
    (tr : trace) :
  count LF text = 0 → text ≠ EmptyString →
  answer model text = Exc IndexError →
  ∃ calls : list string,
    snd (abstractive_summary model fuel text tr) =
      tr ++ text :: text :: calls.
Proof.
  intros Hlf Hne Ha.
  rewrite abstractive_summary_cases, Ha, single_paragraph by done.
  unfold bind at 1. rewrite for_paragraphs_cons, Ha.
  unfold bind at 1, split_further.
  rewrite while_sentences_frame.
  destruct (while_sentences model fuel _ _ [] []) as [[l|e|] c]; simpl;
    exists c; by rewrite <- !app_assoc.
Qed.

(** *** The summary and the answers of the run *)

Lemma answers_cons_Val (x s : string) (calls : list string) :
  answer model x = Val s →
  answers model (x :: calls) = s :: answers model calls.
Proof. intros H. unfold answers. simpl. unfold answered. by rewrite H. Qed.

Lemma answers_cons_Exc (x : string) (e : exn) (calls : list string) :
  answer model x = Exc e →
  answers model (x :: calls) = answers model calls.
Proof. intros H. unfold answers. simpl. unfold answered. by rewrite H. Qed.

Lemma answers_app (a b : list string) :
  answers model (a ++ b) = answers model a ++ answers model b.
Proof. apply omap_app. Qed.

Lemma while_sentences_answers (fuel k : nat) (l acc acc' : list string)
    (tr tr' : trace) :
  while_sentences model fuel k l acc tr = (Val acc', tr') →
  ∃ calls : list string,
    tr' = tr ++ calls ∧ acc' = acc ++ answers model calls.
Proof.
  revert l acc tr. induction fuel as [|fuel IH]; intros l acc tr.
  - destruct l; simpl; unfold ret, out_of_fuel; [|intros [=]].
    intros [= <- <-]. exists []. by rewrite !app_nil_r.
  - destruct (decide (l = [])) as [->|Hne].
    { rewrite while_sentences_nil. intros [= <- <-].
      exists []. by rewrite !app_nil_r. }
    rewrite while_sentences_step by done.
    destruct (answer model (join ". " (take k l))) as [s|e|] eqn:Ea;
      [|intros [=]|intros [=]].
    intros (calls & -> & ->)%IH.
    exists (join ". " (take k l) :: calls).
    rewrite (answers_cons_Val _ s) by done.
    by rewrite <- !app_assoc.
Qed.

Lemma for_paragraphs_answers (fuel : nat) (ps acc acc' : list string)
    (tr tr' : trace) :
  for_paragraphs model fuel ps acc tr = (Val acc', tr') →
  ∃ calls : list string,
    tr' = tr ++ calls ∧ acc' = acc ++ answers model calls.
Proof.
  revert acc tr. induction ps as [|p ps IH]; intros acc tr.
  - simpl. unfold ret. intros [= <- <-]. exists [].
    by rewrite !app_nil_r.
  - rewrite for_paragraphs_cons.
    destruct (answer model p) as [s|[|key|what]|] eqn:Ea;
      try (intros [=]; fail).
    + intros (calls & -> & ->)%IH. exists (p :: calls).
      rewrite (answers_cons_Val _ s) by done.
      by rewrite <- !app_assoc.
    + unfold bind, split_further.
      destruct (while_sentences model fuel _ _ acc (tr ++ [p]))
        as [[l|e|] c] eqn:Ew; try (intros [=]; fail).
      apply while_sentences_answers in Ew as (c1 & -> & ->).
      intros (c2 & -> & ->)%IH. exists (p :: c1 ++ c2).
      rewrite (answers_cons_Exc _ IndexError) by done.
      unfold answers. rewrite omap_app.
      by rewrite <- !app_assoc.
Qed.

(** X2.  Whenever the driver returns, the summary is the newline-join of
    the model's answers to the calls of the run that succeeded, in the
    order of the calls: no answer is dropped, repeated or reordered, and
    nothing else is put into the summary. *)
Theorem summary_is_the_join_of_the_answers (fuel : nat) (text s : string)
    (tr' : trace) :
  abstractive_summary model fuel text [] = (Val s, tr') →
  s = join NL (answers model tr').
Proof.
  rewrite abstractive_summary_cases.
  destruct (answer model text) as [s0|[|key|what]|] eqn:Ea;
    try (intros [=]; fail).
  - intros [= <- <-]. change ([] ++ [text]) with [text].
    by rewrite (answers_cons_Val _ s0).
  - unfold bind.
    destruct (for_paragraphs model fuel _ [] ([] ++ [text]))
      as [[l|e|] c] eqn:Ef; unfold ret; try (intros [=]; fail).
    intros [= <- <-].
    apply for_paragraphs_answers in Ef as (calls & -> & ->).
    change (([] ++ [text]) ++ calls) with (text :: calls).
    by rewrite (answers_cons_Exc _ IndexError).
Qed.

(** *** No line feed reaches the model after the first call *)

Lemma split_pieces_count_le (sep c : ascii) (s w : string) :
  w ∈ split sep s → (count c w ≤ count c s)%nat.
Proof.
  revert w. induction s as [|c0 s IH]; intros w; simpl.
  - intros ->%list_elem_of_singleton. done.
  - destruct (Ascii.eqb c0 sep).
    + intros [->|Hin]%elem_of_cons; simpl; [lia|].
      specialize (IH w Hin). lia.
    + pose proof (split_not_nil sep s) as Hnil.
      destruct (split sep s) as [|w0 ws]; [done|].
      intros [->|Hin]%elem_of_cons.
      * simpl. specialize (IH w0 (list_elem_of_here _ _)). lia.
      * specialize (IH w (list_elem_of_further _ _ _ Hin)). lia.
Qed.

Lemma split_pieces_no_sep (sep : ascii) (s w : string) :
  w ∈ split sep s → count sep w = 0.
Proof.
  revert w. induction s as [|c0 s IH]; intros w; simpl.
  - by intros ->%list_elem_of_singleton.
  - destruct (Ascii.eqb c0 sep) eqn:E.
    + intros [->|Hin]%elem_of_cons; [done | by apply IH].
    + pose proof (split_not_nil sep s) as Hnil.
      destruct (split sep s) as [|w0 ws]; [done|].
      intros [->|Hin]%elem_of_cons.
      * simpl. rewrite E. apply IH. by left.
      * apply IH. by right.
Qed.

Lemma count_append (c : ascii) (a b : string) :
  count c (a +:+ b) = count c a + count c b.
Proof. induction a as [|c0 a IH]; simpl; [done|]. rewrite IH. lia. Qed.

Lemma count_join_0 (c : ascii) (sep : string) (l : list string) :
  count c sep = 0 → Forall (λ w, count c w = 0) l →
  count c (join sep l) = 0.
Proof.
  intros Hsep. induction 1 as [|w l Hw Hl IH]; [done|].
  destruct l as [|w' l]; simpl in *; [done|].
  rewrite !count_append. lia.
Qed.

Lemma while_sentences_no_line_feed (fuel k : nat) (l acc : list string)
    (tr : trace) :
  Forall (λ w, count LF w = 0) l →
  ∃ calls : list string,
    snd (while_sentences model fuel k l acc tr) = tr ++ calls ∧
    Forall (λ x, count LF x = 0) calls.
Proof.
  revert l acc tr. induction fuel as [|fuel IH]; intros l acc tr Hl.
  - exists []. destruct l; simpl; by rewrite app_nil_r.
  - destruct (decide (l = [])) as [->|Hne].
    { rewrite while_sentences_nil. exists []. by rewrite app_nil_r. }
    rewrite while_sentences_step by done.
    assert (Hseg : count LF (join ". " (take k l)) = 0)
      by (apply count_join_0; [done | by apply Forall_take]).
    destruct (answer model (join ". " (take k l))) as [s|e|];
      try (exists [join ". " (take k l)]; split; [done|];
           by apply Forall_singleton).
    destruct (IH (drop k l) (acc ++ [s]) (tr ++ [join ". " (take k l)]))
      as (calls & -> & Hcalls); [by apply Forall_drop|].
    exists (join ". " (take k l) :: calls).
    split; [by rewrite <- app_assoc | by constructor].
Qed.

Lemma for_paragraphs_no_line_feed (fuel : nat) (ps acc : list string)
    (tr : trace) :
  Forall (λ p, count LF p = 0) ps →
  ∃ calls : list string,
    snd (for_paragraphs model fuel ps acc tr) = tr ++ calls ∧
    Forall (λ x, count LF x = 0) calls.
Proof.
  intros Hps. revert acc tr.
  induction Hps as [|p ps Hp Hps IH]; intros acc tr.
  - exists []. simpl. by rewrite app_nil_r.
  - rewrite for_paragraphs_cons.
    destruct (answer model p) as [s|[|key|what]|];
      try (exists [p]; split; [done|]; by apply Forall_singleton).
    + destruct (IH (acc ++ [s]) (tr ++ [p])) as (calls & -> & Hcalls).
      exists (p :: calls).
      split; [by rewrite <- app_assoc | by constructor].
    + unfold bind, split_further.
      destruct (while_sentences_no_line_feed fuel
                  (length (split DOT p) / 2) (split DOT p) acc (tr ++ [p]))
        as (c1 & Hc1 & Hf1).
      { apply Forall_forall. intros w Hw.
        pose proof (split_pieces_count_le DOT LF p w Hw). lia. }
      destruct (while_sentences model fuel _ _ acc (tr ++ [p]))
        as [[l|e|] c]; simpl in Hc1; subst c;
        try (exists (p :: c1); split;
             [by rewrite <- app_assoc | by constructor]).
      destruct (IH l ((tr ++ [p]) ++ c1)) as (c2 & -> & Hf2).
      exists (p :: c1 ++ c2). split; [by rewrite <- !app_assoc|].
      constructor; [done|]. by apply Forall_app.
Qed.

(** X7.  The first text submitted is the document itself, and no later
    text contains a line feed: in the fallback the model only ever sees
    single lines of the document, or segments built from the sentence
    units of one line. *)
Theorem fallback_texts_have_no_line_feed (fuel : nat) (text : string) :
  ∃ calls : list string,
    snd (abstractive_summary model fuel text []) = text :: calls ∧
    Forall (λ x, count LF x = 0) calls.
Proof.
  rewrite abstractive_summary_cases.
  destruct (answer model text) as [s|[|key|what]|];
    try (exists []; split; [done | constructor]).
  unfold bind.
  destruct (for_paragraphs_no_line_feed fuel
              (List.filter truthy (split LF text)) [] ([] ++ [text]))
    as (calls & Hc & Hf).
  { apply Forall_forall. intros p [Hp _]%list_elem_of_In%filter_In.
    apply list_elem_of_In in Hp. by apply (split_pieces_no_sep LF text). }
  destruct (for_paragraphs model fuel _ [] ([] ++ [text])) as [[l|e|] c];
    simpl in Hc; subst c; exists calls; done.
Qed.

(** *** How many calls a run makes *)

Lemma half_at_least_two (n : nat) :
  (2 ≤ n)%nat → (1 ≤ n / 2)%nat ∧ (n ≤ 3 * (n / 2))%nat.
Proof.
  intros Hn.
  pose proof (Nat.div_mod_eq n 2) as Hdm.
  pose proof (Nat.mod_upper_bound n 2) as Hm.
  assert (Hq : (1 ≤ n / 2)%nat)
    by (apply (Nat.div_le_lower_bound _ 2); lia).
  lia.
Qed.

Lemma while_sentences_calls_pos (fuel k : nat) (l acc : list string)
    (tr : trace) :
  (1 ≤ k)%nat →
  ∃ calls : list string,
    snd (while_sentences model fuel k l acc tr) = tr ++ calls ∧
    (length calls * k < length l + k)%nat.
Proof.
  intros Hk. revert l acc tr.
  induction fuel as [|fuel IH]; intros l acc tr.
  - exists []. split; [|simpl; lia].
    destruct l; simpl; by rewrite app_nil_r.
  - destruct (decide (l = [])) as [->|Hne].
    { rewrite while_sentences_nil. exists [].
      split; [by rewrite app_nil_r | simpl; lia]. }
    assert (Hpos : (0 < length l)%nat)
      by (destruct l; simpl; [done | lia]).
    rewrite while_sentences_step by done.
    destruct (answer model (join ". " (take k l))) as [s|e|];
      try (exists [join ". " (take k l)]; split; [done | simpl; lia]).
    destruct (IH (drop k l) (acc ++ [s]) (tr ++ [join ". " (take k l)]))
      as (calls & -> & Hb).
    exists (join ". " (take k l) :: calls).
    split; [by rewrite <- app_assoc|].
    rewrite length_drop in Hb. simpl.
    destruct (decide (k ≤ length l)%nat); [lia|].
    destruct calls as [|x calls]; simpl in *; lia.
Qed.

Lemma while_sentences_calls_zero (fuel : nat) (l acc : list string)
    (tr : trace) :
  fst (while_sentences model fuel 0 l acc tr) ≠ OutOfFuel →
  ∃ calls : list string,
    snd (while_sentences model fuel 0 l acc tr) = tr ++ calls ∧
    (length calls ≤ 1)%nat.
Proof.
  destruct (decide (l = [])) as [->|Hne].
  { rewrite while_sentences_nil. exists [].
    split; [by rewrite app_nil_r | simpl; lia]. }
  destruct fuel as [|fuel].
  { destruct l; [done|]. simpl. done. }
  rewrite while_sentences_step by done.
  rewrite take_0, drop_0. cbn [join].
  destruct (answer model EmptyString) as [s|e|] eqn:Ea.
  - rewrite (while_sentences_zero_size model fuel l _ s) by done. done.
  - exists [EmptyString]. done.
  - by destruct (answer_not_out_of_fuel model EmptyString).
Qed.

Lemma split_further_calls (fuel : nat) (p : string) (acc : list string)
    (tr : trace) :
  fst (split_further model fuel p acc tr) ≠ OutOfFuel →
  ∃ calls : list string,
    snd (split_further model fuel p acc tr) = tr ++ calls ∧
    (length calls ≤ 3)%nat.
Proof.
  unfold split_further. intros Hr.
  destruct (decide (length (split DOT p) / 2 = 0)) as [Hz|Hz].
  - rewrite Hz in Hr |- *.
    destruct (while_sentences_calls_zero _ _ _ _ Hr) as (calls & Hc & Hl).
    exists calls. split; [done | lia].
  - assert (H2 : (2 ≤ length (split DOT p))%nat).
    { destruct (length (split DOT p)) as [|[|n]]; [done | done | lia]. }
    destruct (half_at_least_two _ H2) as [Hk Hn].
    destruct (while_sentences_calls_pos fuel _ (split DOT p) acc tr Hk)
      as (calls & Hc & Hb).
    exists calls. split; [done | nia].
Qed.

Lemma for_paragraphs_calls (fuel : nat) (ps acc : list string) (tr : trace) :
  fst (for_paragraphs model fuel ps acc tr) ≠ OutOfFuel →
  ∃ calls : list string,
    snd (for_paragraphs model fuel ps acc tr) = tr ++ calls ∧
    (length calls ≤ 4 * length ps)%nat.
Proof.
  revert acc tr. induction ps as [|p ps IH]; intros acc tr.
  - exists []. simpl. split; [by rewrite app_nil_r | lia].
  - rewrite for_paragraphs_cons.
    destruct (answer model p) as [s|[|key|what]|];
      try (intros _; exists [p]; split; [done | simpl; lia]).
    + intros (calls & -> & Hl)%IH. exists (p :: calls).
      split; [by rewrite <- app_assoc | simpl; lia].
    + unfold bind.
      pose proof (split_further_calls fuel p acc (tr ++ [p])) as Hsf.
      destruct (split_further model fuel p acc (tr ++ [p]))
        as [[l|e|] c]; simpl in Hsf; [| |done].
      * destruct Hsf as (c1 & -> & Hl1); [done|].
        intros (c2 & -> & Hl2)%IH. exists (p :: c1 ++ c2).
        split; [by rewrite <- !app_assoc|].
        simpl. rewrite length_app. lia.
      * destruct Hsf as (c1 & -> & Hl1); [done|].
        intros _. exists (p :: c1).
        split; [by rewrite <- !app_assoc | simpl; lia].
Qed.

(** X6.  A run that returns or raises makes at most one call for the whole
    document and four calls per non-empty line: the line itself and at
    most three segments. *)
Theorem at_most_four_calls_per_line (fuel : nat) (text : string) :
  fst (abstractive_summary model fuel text []) ≠ OutOfFuel →
  (length (snd (abstractive_summary model fuel text []))
   ≤ 1 + 4 * length (List.filter truthy (split LF text)))%nat.
Proof.
  rewrite abstractive_summary_cases.
  destruct (answer model text) as [s|[|key|what]|];
    try (intros _; simpl; lia).
  unfold bind.
  pose proof (for_paragraphs_calls fuel
                (List.filter truthy (split LF text)) [] ([] ++ [text]))
    as Hfp.
  destruct (for_paragraphs model fuel _ [] ([] ++ [text])) as [[l|e|] c];
    simpl in Hfp |- *; [| |done].
  - destruct Hfp as (calls & -> & Hl); [done|]. intros _. simpl. lia.
  - destruct Hfp as (calls & -> & Hl); [done|]. intros _. simpl. lia.
Qed.

(** *** Three iterations or none *)

Lemma while_sentences_mono (fuel fuel' k : nat) (l acc : list string)
    (tr : trace) :
  (fuel ≤ fuel')%nat →
  fst (while_sentences model fuel k l acc tr) ≠ OutOfFuel →
  while_sentences model fuel' k l acc tr =
  while_sentences model fuel k l acc tr.
Proof.
  revert fuel' l acc tr.
  induction fuel as [|fuel IH]; intros fuel' l acc tr Hle Hr.
  - destruct l; [by rewrite !while_sentences_nil | done].
  - destruct (decide (l = [])) as [->|Hne].
    { by rewrite !while_sentences_nil. }
    destruct fuel' as [|fuel']; [lia|].
    rewrite while_sentences_step in Hr by done.
    rewrite !while_sentences_step by done.
    destruct (answer model (join ". " (take k l))); [|done|done].
    apply IH; [lia | done].
Qed.

Lemma while_sentences_enough (fuel k : nat) (l acc : list string)
    (tr : trace) :
  (1 ≤ k)%nat → (length l ≤ fuel * k)%nat →
  fst (while_sentences model fuel k l acc tr) ≠ OutOfFuel.
Proof.
  intros Hk. revert l acc tr.
  induction fuel as [|fuel IH]; intros l acc tr Hl.
  - destruct l; simpl in *; [done | lia].
  - destruct (decide (l = [])) as [->|Hne].
    { by rewrite while_sentences_nil. }
    rewrite while_sentences_step by done.
    pose proof (answer_not_out_of_fuel model (join ". " (take k l))).
    destruct (answer model (join ". " (take k l))); [|done|done].
    apply IH. rewrite length_drop. simpl in Hl. lia.
Qed.

Lemma split_further_three (fuel : nat) (p : string) (acc : list string)
    (tr : trace) :
  (3 ≤ fuel)%nat →
  fst (split_further model fuel p acc tr) ≠ OutOfFuel ∨
  fst (split_further model 3 p acc tr) ≠ OutOfFuel →
  split_further model fuel p acc tr = split_further model 3 p acc tr.
Proof.
  intros Hfuel. unfold split_further.
  destruct (decide (count DOT p = 0)) as [Hz|Hz].
  - rewrite split_no_sep by done. simpl length. change (1 / 2) with 0.
    destruct fuel as [|fuel]; [lia|].
    rewrite !(while_sentences_step model _ 0 [p]) by done.
    rewrite take_0, drop_0. cbn [join].
    pose proof (answer_not_out_of_fuel model EmptyString).
    destruct (answer model EmptyString) as [s|e|] eqn:Ea; [|done|done].
    rewrite !(while_sentences_zero_size model _ [p] _ s) by done.
    simpl. intros [Hr|Hr]; done.
  - intros _.
    assert (H2 : (2 ≤ length (split DOT p))%nat)
      by (rewrite length_split; lia).
    destruct (half_at_least_two _ H2) as [Hk Hn].
    apply while_sentences_mono; [done|].
    by apply while_sentences_enough.
Qed.

Lemma for_paragraphs_three (fuel : nat) (ps acc : list string) (tr : trace) :
  (3 ≤ fuel)%nat →
  fst (for_paragraphs model fuel ps acc tr) ≠ OutOfFuel ∨
  fst (for_paragraphs model 3 ps acc tr) ≠ OutOfFuel →
  for_paragraphs model fuel ps acc tr = for_paragraphs model 3 ps acc tr.
Proof.
  intros Hfuel. revert acc tr.
  induction ps as [|p ps IH]; intros acc tr; [done|].
  rewrite !for_paragraphs_cons.
  destruct (answer model p) as [s|[|key|what]|]; try done.
  - apply IH.
  - unfold bind. intros Hr.
    assert (Hsf : fst (split_further model fuel p acc (tr ++ [p]))
                    ≠ OutOfFuel ∨
                  fst (split_further model 3 p acc (tr ++ [p]))
                    ≠ OutOfFuel).
    { destruct (split_further model fuel p acc (tr ++ [p])) as [[l|e|] c],
        (split_further model 3 p acc (tr ++ [p])) as [[l'|e'|] c'];
        simpl; try (by left); try (by right).
      simpl in Hr. by destruct Hr. }
    rewrite (split_further_three fuel p acc (tr ++ [p]) Hfuel Hsf)
      in Hr |- *.
    destruct (split_further model 3 p acc (tr ++ [p])) as [[l|e|] c];
      [by apply IH | done | done].
Qed.

Lemma for_paragraphs_mono (fuel fuel' : nat) (ps acc : list string)
    (tr : trace) :
  (fuel ≤ fuel')%nat →
  fst (for_paragraphs model fuel ps acc tr) ≠ OutOfFuel →
  for_paragraphs model fuel' ps acc tr = for_paragraphs model fuel ps acc tr.
Proof.
  intros Hle. revert acc tr.
  induction ps as [|p ps IH]; intros acc tr; [done|].
  rewrite !for_paragraphs_cons.
  destruct (answer model p) as [s|[|key|what]|]; try done.
  - apply IH.
  - unfold bind, split_further. intros Hr.
    assert (Hw : fst (while_sentences model fuel
                        (length (split DOT p) / 2) (split DOT p) acc
                        (tr ++ [p])) ≠ OutOfFuel).
    { destruct (while_sentences model fuel _ _ acc (tr ++ [p]))
        as [[l|e|] c]; done. }
    rewrite (while_sentences_mono fuel fuel' _ _ _ _ Hle Hw).
    destruct (while_sentences model fuel _ _ acc (tr ++ [p]))
      as [[l|e|] c]; [by apply IH | done | done].
Qed.

(** X4.  The loop of the sentence fallback finishes within three
    iterations or not at all.  If the run with fuel 3 is out of fuel, so
    is the run with any fuel; if it is not, every run with more fuel is
    the same run. *)
Theorem three_iterations_or_none (text : string) (tr : trace) :
  (fst (abstractive_summary model 3 text tr) = OutOfFuel →
   ∀ fuel, fst (abstractive_summary model fuel text tr) = OutOfFuel) ∧
  (fst (abstractive_summary model 3 text tr) ≠ OutOfFuel →
   ∀ fuel, (3 ≤ fuel)%nat →
     abstractive_summary model fuel text tr =
     abstractive_summary model 3 text tr).
Proof.
  assert (Hthree : ∀ fuel, (3 ≤ fuel)%nat →
            fst (abstractive_summary model fuel text tr) ≠ OutOfFuel ∨
            fst (abstractive_summary model 3 text tr) ≠ OutOfFuel →
            abstractive_summary model fuel text tr =
            abstractive_summary model 3 text tr).
  { intros fuel Hfuel. rewrite !abstractive_summary_cases.
    destruct (answer model text) as [s|[|key|what]|]; try done.
    unfold bind. intros Hr.
    assert (Hfp : fst (for_paragraphs model fuel
                         (List.filter truthy (split LF text)) []
                         (tr ++ [text])) ≠ OutOfFuel ∨
                  fst (for_paragraphs model 3
                         (List.filter truthy (split LF text)) []
                         (tr ++ [text])) ≠ OutOfFuel).
    { destruct (for_paragraphs model fuel _ [] (tr ++ [text]))
        as [[l|e|] c],
        (for_paragraphs model 3 _ [] (tr ++ [text])) as [[l'|e'|] c'];
        simpl; try (by left); try (by right).
      simpl in Hr. by destruct Hr. }
    by rewrite (for_paragraphs_three fuel _ [] (tr ++ [text]) Hfuel Hfp). }
  assert (Hmono : ∀ fuel, (fuel ≤ 3)%nat →
            fst (abstractive_summary model fuel text tr) ≠ OutOfFuel →
            abstractive_summary model 3 text tr =
            abstractive_summary model fuel text tr).
  { intros fuel Hfuel. rewrite !abstractive_summary_cases.
    destruct (answer model text) as [s|[|key|what]|]; try done.
    unfold bind. intros Hr.
    assert (Hfp : fst (for_paragraphs model fuel
                         (List.filter truthy (split LF text)) []
                         (tr ++ [text])) ≠ OutOfFuel).
    { destruct (for_paragraphs model fuel _ [] (tr ++ [text]))
        as [[l|e|] c]; done. }
    by rewrite (for_paragraphs_mono fuel 3 _ [] (tr ++ [text]) Hfuel Hfp). }
  split.
  - intros H3 fuel.
    assert (Hcase : fst (abstractive_summary model fuel text tr)
                      = OutOfFuel ∨
                    fst (abstractive_summary model fuel text tr)
                      ≠ OutOfFuel)
      by (destruct (fst (abstractive_summary model fuel text tr));
          [by right | by right | by left]).
    destruct Hcase as [|Hr]; [done|].
    exfalso.
    destruct (decide (3 ≤ fuel)%nat) as [Hge|Hlt].
    + rewrite (Hthree fuel Hge (or_introl Hr)) in Hr. done.
    + rewrite (Hmono fuel) in H3 by (done || lia). done.
  - intros H3 fuel Hge. apply Hthree; [done | by right].
Qed.

(** *** Documents put one after the other *)

Lemma append_assoc (a b c : string) : (a +:+ b) +:+ c = a +:+ (b +:+ c).
Proof.
  induction a as [|x a IH]; [done|].
  change (String x ((a +:+ b) +:+ c) = String x (a +:+ b +:+ c)).
  by rewrite IH.
Qed.

Lemma join_app (sep : string) (l1 l2 : list string) :
  l1 ≠ [] → l2 ≠ [] →
  join sep (l1 ++ l2) = join sep l1 +:+ sep +:+ join sep l2.
Proof.
  intros Hl1 Hl2. induction l1 as [|x l1 IH]; [done|].
  destruct l1 as [|y l1].
  - destruct l2; done.
  - change (join sep ((x :: y :: l1) ++ l2))
      with (x +:+ sep +:+ join sep ((y :: l1) ++ l2)).
    rewrite IH by done.
    change (join sep (x :: y :: l1)) with (x +:+ sep +:+ join sep (y :: l1)).
    by rewrite !append_assoc.
Qed.

Lemma paragraphs_of_two (t1 t2 : string) :
  List.filter truthy (split LF (t1 +:+ NL +:+ t2)) =
  List.filter truthy (split LF t1) ++ List.filter truthy (split LF t2).
Proof.
  change (NL +:+ t2) with (String LF t2).
  by rewrite split_app_sep, List.filter_app.
Qed.

Lemma while_sentences_grows (fuel k : nat) (l acc acc' : list string)
    (tr tr' : trace) :
  while_sentences model fuel k l acc tr = (Val acc', tr') →
  (length acc ≤ length acc')%nat ∧
  (l ≠ [] → (length acc < length acc')%nat).
Proof.
  revert l acc tr. induction fuel as [|fuel IH]; intros l acc tr.
  - destruct l; simpl; unfold ret, out_of_fuel; [|intros [=]].
    by intros [= <- <-].
  - destruct (decide (l = [])) as [->|Hne].
    { rewrite while_sentences_nil. by intros [= <- <-]. }
    rewrite while_sentences_step by done.
    destruct (answer model (join ". " (take k l))) as [s|e|];
      [|intros [=]|intros [=]].
    intros [Hle _]%IH. rewrite length_app in Hle. simpl in Hle.
    split; [lia | intros _; lia].
Qed.

Lemma for_paragraphs_grows (fuel : nat) (ps acc acc' : list string)
    (tr tr' : trace) :
  for_paragraphs model fuel ps acc tr = (Val acc', tr') →
  (length acc + length ps ≤ length acc')%nat.
Proof.
  revert acc tr. induction ps as [|p ps IH]; intros acc tr.
  - simpl. unfold ret. intros [= <- <-]. lia.
  - rewrite for_paragraphs_cons.
    destruct (answer model p) as [s|[|key|what]|];
      try (intros [=]; fail).
    + intros Hle%IH. rewrite length_app in Hle. simpl in *. lia.
    + unfold bind, split_further.
      destruct (while_sentences model fuel _ _ acc (tr ++ [p]))
        as [[l|e|] c] eqn:Ew; try (intros [=]; fail).
      apply while_sentences_grows in Ew as [_ Hlt].
      specialize (Hlt (split_not_nil DOT p)).
      intros Hle%IH. simpl. lia.
Qed.

(** X9.  Summaries of documents that exceed the budget concatenate.  When
    two documents, each with a non-empty line, exceed the budget and are
    summarized through the fallback, and the two put one after the other
    with a line feed between exceed it as well, then the summary of the
    combined document is the two summaries joined by a newline, and the
    calls are the combined document followed by the fallback calls of the
    first and of the second. *)
Theorem summaries_of_long_documents_concatenate (fuel : nat)
    (t1 t2 s1 s2 : string) (tr1 tr2 : trace) :
  answer model (t1 +:+ NL +:+ t2) = Exc IndexError →
  answer model t1 = Exc IndexError →
  answer model t2 = Exc IndexError →
  List.filter truthy (split LF t1) ≠ [] →
  List.filter truthy (split LF t2) ≠ [] →
  abstractive_summary model fuel t1 [] = (Val s1, tr1) →
  abstractive_summary model fuel t2 [] = (Val s2, tr2) →
  abstractive_summary model fuel (t1 +:+ NL +:+ t2) [] =
    (Val (s1 +:+ NL +:+ s2),
     (t1 +:+ NL +:+ t2) :: tail tr1 ++ tail tr2).
Proof.
  intros Ha Ha1 Ha2 Hn1 Hn2.
  rewrite !abstractive_summary_cases, Ha, Ha1, Ha2, paragraphs_of_two.
  unfold bind.
  rewrite (for_paragraphs_frame fuel _ [] ([] ++ [t1])).
  rewrite (for_paragraphs_frame fuel _ [] ([] ++ [t2])).
  destruct (for_paragraphs model fuel (List.filter truthy (split LF t1))
              [] []) as [[l1|e1|] c1] eqn:E1;
    simpl; try (intros [=]; fail).
  unfold ret. intros [= <- <-].
  destruct (for_paragraphs model fuel (List.filter truthy (split LF t2))
              [] []) as [[l2|e2|] c2] eqn:E2;
    simpl; try (intros [=]; fail).
  intros [= <- <-].
  rewrite (for_paragraphs_app_Val model fuel _ _ [] l1
             [t1 +:+ NL +:+ t2] ([t1 +:+ NL +:+ t2] ++ c1)).
  2:{ rewrite for_paragraphs_frame, E1. simpl. done. }
  rewrite for_paragraphs_frame, E2. simpl.
  pose proof (for_paragraphs_grows _ _ _ _ _ _ E1) as Hg1.
  pose proof (for_paragraphs_grows _ _ _ _ _ _ E2) as Hg2.
  rewrite join_app.
  - done.
  - destruct l1, (List.filter truthy (split LF t1)); simpl in *;
      [done | lia | done | done].
  - destruct l2, (List.filter truthy (split LF t2)); simpl in *;
      [done | lia | done | done].
Qed.

(** *** The fallback run in full *)

Lemma while_sentences_all_fit (m fuel k : nat) (l acc : list string)
    (tr : trace) :
  (1 ≤ k)%nat → (m ≤ fuel)%nat → (length l ≤ m * k)%nat →
  (∀ j, (j < m)%nat → drop (j * k) l ≠ []) →
  Forall (λ x, ∃ s, answer model x = Val s)
    (map (Aux.segment_of k l) (seq 0 m)) →
  while_sentences model fuel k l acc tr =
    (Val (acc ++ answers model (map (Aux.segment_of k l) (seq 0 m))),
     tr ++ map (Aux.segment_of k l) (seq 0 m)).
Proof.
  intros Hk. revert fuel l acc tr.
  induction m as [|m IH]; intros fuel l acc tr Hfuel Hlen Hd Hall.
  - assert (l = []) as -> by (apply nil_length_inv; simpl in Hlen; lia).
    rewrite while_sentences_nil. simpl. by rewrite !app_nil_r.
  - destruct fuel as [|fuel]; [lia|].
    assert (Hne : l ≠ []) by (specialize (Hd 0); rewrite drop_0 in Hd;
                              apply Hd; lia).
    change (seq 0 (S m)) with (0 :: seq 1 m) in Hall |- *.
    cbn [map] in Hall |- *.
    rewrite <- map_segment_of_drop in Hall |- *.
    rewrite segment_of_0 in Hall |- *.
    apply Forall_cons in Hall as [[s Hs] Hall].
    rewrite while_sentences_step, Hs by done.
    rewrite (IH fuel (drop k l)).
    + rewrite (answers_cons_Val _ s) by done.
      by rewrite <- !app_assoc.
    + lia.
    + rewrite length_drop. simpl in Hlen. lia.
    + intros j Hj. rewrite drop_drop.
      replace (k + j * k) with (S j * k) by lia. apply Hd. lia.
    + done.
Qed.

Lemma split_further_all_fit (fuel : nat) (p : string) (acc : list string)
    (tr : trace) :
  (1 ≤ count DOT p)%nat → (3 ≤ fuel)%nat →
  Forall (λ x, ∃ s, answer model x = Val s) (segments p) →
  split_further model fuel p acc tr =
    (Val (acc ++ answers model (segments p)), tr ++ segments p).
Proof.
  intros Hdot Hfuel Hall. unfold split_further, segments, Aux.segment in *.
  assert (H2 : (2 ≤ length (split DOT p))%nat)
    by (rewrite length_split; lia).
  destruct (half_at_least_two _ H2) as [Hk Hn].
  set (l := split DOT p) in *. set (n := length l) in *.
  pose proof (Nat.div_mod_eq n 2) as Hdm.
  set (q := n / 2) in *.
  assert (Hd : ∀ m j, (m * q < n + q)%nat → (j < m)%nat →
                 drop (j * q) l ≠ []).
  { intros m j Hm Hj E. apply (f_equal length) in E.
    rewrite length_drop in E. simpl length in E.
    change (length l) with n in E.
    pose proof (Nat.mul_le_mono_r (S j) m q Hj) as Hmul.
    rewrite Nat.mul_succ_l in Hmul. lia. }
  destruct (Nat.even n) eqn:Ev.
  - assert (n mod 2 = 0).
    { apply Nat.even_spec in Ev as [h Hh].
      rewrite Hh, Nat.mul_comm. apply Nat.Div0.mod_mul. }
    apply (while_sentences_all_fit 2); try done; try lia.
    intros j Hj. apply (Hd 2); lia.
  - assert (n mod 2 = 1).
    { pose proof (Nat.mod_upper_bound n 2).
      destruct (n mod 2) as [|[|r]] eqn:Er; [|done|lia].
      exfalso. assert (Nat.even n = true); [|congruence].
      apply Nat.even_spec. exists q. lia. }
    apply (while_sentences_all_fit 3); try done; try lia.
    intros j Hj. apply (Hd 3); lia.
Qed.

(** X1.  The fallback run in full.  When the whole document exceeds the
    budget and every non-empty line either fits, or exceeds the budget,
    contains a period and has segments that all fit, then with fuel 3 or
    more the driver returns.  The calls are the document, then for each
    line in order the line itself followed, when it did not fit, by its
    two or three segments; the summary is the newline-join of the answers
    to the calls that succeeded. *)
Theorem fallback_run_in_full (fuel : nat) (text : string) (tr : trace) :
  answer model text = Exc IndexError →
  Forall (λ p, (∃ s, answer model p = Val s) ∨
               (answer model p = Exc IndexError ∧ (1 ≤ count DOT p)%nat ∧
                Forall (λ x, ∃ s, answer model x = Val s) (segments p)))
    (List.filter truthy (split LF text)) →
  (3 ≤ fuel)%nat →
  abstractive_summary model fuel text tr =
    (Val (join NL
            (answers model
               (concat (map (paragraph_calls model)
                          (List.filter truthy (split LF text)))))),
     tr ++ text :: concat (map (paragraph_calls model)
                             (List.filter truthy (split LF text)))).
Proof.
  intros Ha Hps Hfuel.
  rewrite abstractive_summary_cases, Ha. unfold bind.
  assert (Hfp : ∀ acc tr0,
            for_paragraphs model fuel (List.filter truthy (split LF text))
              acc tr0 =
            (Val (acc ++ answers model
                    (concat (map (paragraph_calls model)
                               (List.filter truthy (split LF text))))),
             tr0 ++ concat (map (paragraph_calls model)
                              (List.filter truthy (split LF text))))).
  { induction Hps as [|p ps Hp Hps IH]; intros acc tr0.
    - simpl. unfold ret. by rewrite !app_nil_r.
    - rewrite for_paragraphs_cons. cbn [map concat].
      rewrite answers_app.
      destruct Hp as [[s Hs]|(Hp & Hdot & Hsegs)].
      + unfold paragraph_calls. rewrite Hs, IH.
        rewrite (answers_cons_Val _ s) by done.
        change (answers model []) with (@nil string).
        by rewrite <- !app_assoc.
      + unfold paragraph_calls. rewrite Hp. unfold bind.
        rewrite split_further_all_fit, IH by done.
        rewrite (answers_cons_Exc _ IndexError) by done.
        by rewrite <- !app_assoc. }
  rewrite Hfp. unfold ret. simpl. by rewrite <- app_assoc.
Qed.

(** *** When the driver does not terminate *)

Lemma for_paragraphs_out_of_fuel_inv (fuel : nat) (ps acc : list string)
    (tr : trace) :
  fst (for_paragraphs model fuel ps acc tr) = OutOfFuel →
  ∃ (ps1 : list string) (p : string) (ps2 acc1 : list string) (tr1 : trace),
    ps = ps1 ++ p :: ps2 ∧
    for_paragraphs model fuel ps1 acc tr = (Val acc1, tr1) ∧
    answer model p = Exc IndexError ∧
    fst (split_further model fuel p acc1 (tr1 ++ [p])) = OutOfFuel.
Proof.
  revert acc tr. induction ps as [|p0 rest IH]; intros acc tr.
  - simpl. intros [=].
  - rewrite for_paragraphs_cons.
    pose proof (answer_not_out_of_fuel model p0) as Hnf.
    destruct (answer model p0) as [s|[|key|what]|] eqn:Ea;
      try (simpl; intros [=]; fail); [| |done].
    + intros (ps1 & p & ps2 & acc1 & tr1 & -> & Hpre & Hp & Hsf)%IH.
      exists (p0 :: ps1), p, ps2, acc1, tr1. split; [done|].
      split; [|done]. by rewrite for_paragraphs_cons, Ea.
    + unfold bind.
      destruct (split_further model fuel p0 acc (tr ++ [p0]))
        as [[acc'|e'|] tr2] eqn:Es; [|simpl; intros [=]|].
      * intros (ps1 & p & ps2 & acc1 & tr1 & -> & Hpre & Hp & Hsf)%IH.
        exists (p0 :: ps1), p, ps2, acc1, tr1. split; [done|].
        split; [|done].
        rewrite for_paragraphs_cons, Ea. unfold bind. by rewrite Es.
      * intros _. exists [], p0, rest, acc, tr.
        split; [done|]. split; [done|]. split; [done|]. by rewrite Es.
Qed.

(** X5.  With fuel 3 or more, the driver runs out of fuel exactly when the
    whole document exceeds the budget and a line is reached, the earlier
    ones having been summarized, that exceeds the budget and contains no
    period, while the model answers the empty string. *)
Theorem runaway_exactly_when (fuel : nat) (text : string) (tr : trace) :
  (3 ≤ fuel)%nat →
  fst (abstractive_summary model fuel text tr) = OutOfFuel ↔
  answer model text = Exc IndexError ∧
  ∃ (ps1 : list string) (p : string) (ps2 acc : list string) (tr1 : trace),
    List.filter truthy (split LF text) = ps1 ++ p :: ps2 ∧
    for_paragraphs model fuel ps1 [] (tr ++ [text]) = (Val acc, tr1) ∧
    answer model p = Exc IndexError ∧
    count DOT p = 0 ∧
    ∃ s, answer model EmptyString = Val s.
Proof.
  intros Hfuel. rewrite abstractive_summary_cases. split.
  - pose proof (answer_not_out_of_fuel model text) as Hnf.
    destruct (answer model text) as [s|[|key|what]|] eqn:Ea;
      try (simpl; intros [=]; fail); [|done].
    unfold bind.
    destruct (for_paragraphs model fuel _ [] (tr ++ [text]))
      as [[a|e|] t] eqn:E; unfold ret; try (simpl; intros [=]; fail).
    intros _. split; [done|].
    destruct (for_paragraphs_out_of_fuel_inv fuel
                (List.filter truthy (split LF text)) [] (tr ++ [text]))
      as (ps1 & p & ps2 & acc1 & tr1 & Hps & Hpre & Hp & Hsf);
      [by rewrite E|].
    exists ps1, p, ps2, acc1, tr1.
    split; [done|]. split; [done|]. split; [done|].
    unfold split_further in Hsf.
    destruct (decide (count DOT p = 0)) as [Hz|Hz].
    + split; [done|].
      rewrite split_no_sep in Hsf by done. simpl length in Hsf.
      change (1 / 2) with 0 in Hsf.
      destruct fuel as [|fuel]; [lia|].
      rewrite while_sentences_step in Hsf by done.
      change (join ". " (take 0 [p])) with EmptyString in Hsf.
      destruct (answer model EmptyString) as [s|e|] eqn:Ee;
        [by exists s | by simpl in Hsf
        | by destruct (answer_not_out_of_fuel model EmptyString)].
    + exfalso.
      assert (H2 : (2 ≤ length (split DOT p))%nat)
        by (rewrite length_split; lia).
      destruct (half_at_least_two _ H2) as [Hk Hn].
      revert Hsf. apply while_sentences_enough; [done | nia].
  - intros (Ha & ps1 & p & ps2 & acc & tr1 & Hps & Hpre & Hp & Hz & s & Hs).
    rewrite Ha, Hps. unfold bind.
    rewrite (for_paragraphs_app_Val model _ _ _ _ _ _ _ Hpre).
    rewrite for_paragraphs_cons, Hp. unfold bind, split_further.
    rewrite split_no_sep by done. simpl length. change (1 / 2) with 0.
    by rewrite (while_sentences_zero_size model fuel [p] acc s).
Qed.

(** *** Empty sentence units in the fallback *)

Lemma segments_unit_chunks (p : string) :
  segments p = map (join ". ") (unit_chunks p).
Proof. unfold segments, unit_chunks. by rewrite map_map. Qed.

Lemma chunks_concat (k m : nat) (l : list string) :
  (length l ≤ m * k)%nat →
  concat (map (λ j, take k (drop (j * k) l)) (seq 0 m)) = l.
Proof.
  revert l. induction m as [|m IH]; intros l Hl.
  - symmetry. apply nil_length_inv. simpl in Hl. lia.
  - change (seq 0 (S m)) with (0 :: seq 1 m). cbn [map concat].
    rewrite Nat.mul_0_l, drop_0.
    rewrite <- seq_shift, map_map.
    rewrite (map_ext _ (λ j, take k (drop (j * k) (drop k l)))).
    + rewrite IH; [apply take_drop|].
      rewrite length_drop. simpl in Hl. lia.
    + intros j. rewrite drop_drop.
      by replace (k + j * k) with (S j * k) by lia.
Qed.

Lemma chunks_bounds (k m : nat) (l : list string) :
  (1 ≤ k)%nat → (∀ j, (j < m)%nat → drop (j * k) l ≠ []) →
  Forall (λ c, c ≠ [] ∧ (length c ≤ k)%nat)
    (map (λ j, take k (drop (j * k) l)) (seq 0 m)).
Proof.
  intros Hk Hd. apply List.Forall_map, Forall_forall.
  intros j Hj%elem_of_seq. split.
  - specialize (Hd j). destruct (drop (j * k) l).
    + exfalso. apply Hd; [lia | done].
    + destruct k; [lia | done].
  - rewrite length_take. lia.
Qed.

Lemma unit_chunks_shape (p : string) :
  (1 ≤ count DOT p)%nat →
  concat (unit_chunks p) = split DOT p ∧
  Forall (λ c, c ≠ [] ∧ (length c ≤ S (count DOT p) / 2)%nat)
    (unit_chunks p).
Proof.
  intros Hdot. rewrite <- (length_split DOT p). unfold unit_chunks.
  assert (H2 : (2 ≤ length (split DOT p))%nat)
    by (rewrite length_split; lia).
  destruct (half_at_least_two _ H2) as [Hk Hn].
  set (l := split DOT p) in *. set (n := length l) in *.
  pose proof (Nat.div_mod_eq n 2) as Hdm.
  set (q := n / 2) in *.
  assert (Hd : ∀ m j, (m * q < n + q)%nat → (j < m)%nat →
                 drop (j * q) l ≠ []).
  { intros m j Hm Hj E. apply (f_equal length) in E.
    rewrite length_drop in E. simpl length in E.
    change (length l) with n in E.
    pose proof (Nat.mul_le_mono_r (S j) m q Hj) as Hmul.
    rewrite Nat.mul_succ_l in Hmul. lia. }
  destruct (Nat.even n) eqn:Ev.
  - assert (n mod 2 = 0).
    { apply Nat.even_spec in Ev as [h Hh].
      rewrite Hh, Nat.mul_comm. apply Nat.Div0.mod_mul. }
    split; [apply chunks_concat; fold n; lia|].
    apply chunks_bounds; [done|]. intros j Hj. apply (Hd 2); lia.
  - assert (n mod 2 = 1).
    { pose proof (Nat.mod_upper_bound n 2).
      destruct (n mod 2) as [|[|r]] eqn:Er; [|done|lia].
      exfalso. assert (Nat.even n = true); [|congruence].
      apply Nat.even_spec. exists q. lia. }
    split; [apply chunks_concat; fold n; lia|].
    apply chunks_bounds; [done|]. intros j Hj. apply (Hd 3); lia.
Qed.

(** C10.  In the sentence fallback no sentence unit is discarded, empty
    or not.  For a paragraph that contains a period, every period opens a
    unit; a final period leaves an empty last unit and two periods in a
    row an empty unit between them.  The lists the loop slices off hold
    all these units, in order, each list has at most half of the full
    count and none is empty; and when the segments fit, the calls of the
    fallback are the [". "]-join of every one of these lists, so every
    unit, the empty ones too, is in a text submitted to the model: for a
    one-line document that exceeds the budget the calls of the run are the
    document, the paragraph and these joins.  At the paragraph level, in
    contrast, no empty piece is left. *)
Theorem empty_sentence_fragments_are_submitted (fuel : nat)
    (p q r : string) (acc : list string) (tr : trace) :
  (1 ≤ count DOT p)%nat →
  Forall (λ c, ∃ s, answer model (join ". " c) = Val s) (unit_chunks p) →
  (3 ≤ fuel)%nat →
  length (split DOT p) = S (count DOT p) ∧
  split DOT (q +:+ ".") = split DOT q ++ [EmptyString] ∧
  split DOT (q +:+ ".." +:+ r) = split DOT q ++ EmptyString :: split DOT r ∧
  concat (unit_chunks p) = split DOT p ∧
  Forall (λ c, c ≠ [] ∧ (length c ≤ S (count DOT p) / 2)%nat)
    (unit_chunks p) ∧
  split_further model fuel p acc tr =
    (Val (acc ++ answers model (map (join ". ") (unit_chunks p))),
     tr ++ map (join ". ") (unit_chunks p)) ∧
  (count LF p = 0 → answer model p = Exc IndexError →
   abstractive_summary model fuel p tr =
     (Val (join NL (answers model (map (join ". ") (unit_chunks p)))),
      tr ++ p :: p :: map (join ". ") (unit_chunks p))) ∧
  EmptyString ∉ List.filter truthy (split LF p).
Proof.
  intros Hdot Hfit Hfuel.
  split; [apply length_split|].
  split; [apply (split_app_sep DOT q EmptyString)|].
  split.
  { change (".." +:+ r) with (String DOT (String DOT r)).
    by rewrite (split_app_sep DOT q (String DOT r)). }
  destruct (unit_chunks_shape p Hdot) as [Hconcat Hbounds].
  split; [done|]. split; [done|].
  assert (Hsegs : Forall (λ x, ∃ s, answer model x = Val s) (segments p))
    by (rewrite segments_unit_chunks; by apply List.Forall_map).
  assert (Hsf : ∀ acc0 tr0,
            split_further model fuel p acc0 tr0 =
            (Val (acc0 ++ answers model (map (join ". ") (unit_chunks p))),
             tr0 ++ map (join ". ") (unit_chunks p))).
  { intros acc0 tr0. rewrite split_further_all_fit by done.
    by rewrite segments_unit_chunks. }
  split; [apply Hsf|].
  split; [|apply filter_truthy_no_empty].
  intros Hlf Hp.
  assert (Hne : p ≠ EmptyString) by (intros ->; simpl in Hdot; lia).
  rewrite abstractive_summary_cases, Hp, single_paragraph by done.
  unfold bind at 1. rewrite for_paragraphs_cons, Hp. unfold bind at 1.
  rewrite Hsf. cbn [for_paragraphs]. unfold ret.
  cbn [app]. by rewrite <- !app_assoc.
Qed.

End WithModel.

(** *** What the driver sees of the model *)

Section TwoModels.

Variables m1 m2 : pipeline.
Hypothesis same_answers : ∀ x, answer m1 x = answer m2 x.

Lemma while_sentences_ext (fuel k : nat) (l acc : list string) (tr : trace) :
  while_sentences m1 fuel k l acc tr = while_sentences m2 fuel k l acc tr.
Proof.
  revert l acc tr. induction fuel as [|fuel IH]; intros l acc tr.
  - by destruct l.
  - destruct (decide (l = [])) as [->|Hne].
    { by rewrite !while_sentences_nil. }
    rewrite !while_sentences_step, same_answers by done.
    destruct (answer m2 _); [apply IH | done | done].
Qed.

Lemma for_paragraphs_ext (fuel : nat) (ps acc : list string) (tr : trace) :
  for_paragraphs m1 fuel ps acc tr = for_paragraphs m2 fuel ps acc tr.
Proof.
  revert acc tr. induction ps as [|p ps IH]; intros acc tr; [done|].
  rewrite !for_paragraphs_cons, same_answers.
  destruct (answer m2 p) as [s|[|key|what]|]; try done.
  unfold bind, split_further. rewrite while_sentences_ext.
  destruct (while_sentences m2 fuel _ _ _ _) as [[l|e|] c]; done.
Qed.

End TwoModels.

(** X10.  The driver sees of the model only what
    [output[0]['summary_text']] gives for each submitted text: two
    pipelines with the same such answers give the same run, whatever else
    their outputs hold.  In particular an empty output list and an
    [IndexError] raised inside the call are not told apart. *)
Theorem only_the_first_summary_text_is_observed (m1 m2 : pipeline)
    (fuel : nat) (text : string) (tr : trace) :
  (∀ x, answer m1 x = answer m2 x) →
  abstractive_summary m1 fuel text tr = abstractive_summary m2 fuel text tr.
Proof.
  intros H. rewrite !abstractive_summary_cases, H.
  destruct (answer m2 text) as [s|[|key|what]|]; try done.
  unfold bind. by rewrite (for_paragraphs_ext m1 m2 H).
Qed.

Lemma summary_is_the_join_of_the_answers_witness :
  join NL ["<a>"; "<b>"; "<c>"] =
  join NL (answers (budget_model 4) ["a.b.c"; "a.b.c"; "a"; "b"; "c"]).
Proof.
  apply (summary_is_the_join_of_the_answers (budget_model 4) 3 "a.b.c").
  reflexivity.
Defined.

(** Three sentence units in a single line: five calls, the bound. *)
Lemma at_most_four_calls_per_line_witness :
  (length (snd (abstractive_summary (budget_model 4) 3 "a.b.c" []))
   ≤ 1 + 4 * length (List.filter truthy (split LF "a.b.c")))%nat ∧
  length (snd (abstractive_summary (budget_model 4) 3 "a.b.c" [])) = 5.
Proof.
  split; [|reflexivity].
  apply (at_most_four_calls_per_line (budget_model 4) 3 "a.b.c").
  discriminate.
Defined.

Lemma summaries_of_long_documents_concatenate_witness :
  abstractive_summary (budget_model 3) 3
    ("ab.cd" +:+ NL +:+ join NL ["ef"; "gh"]) [] =
    (Val (join NL ["<ab>"; "<cd>"] +:+ NL +:+ join NL ["<ef>"; "<gh>"]),
     ("ab.cd" +:+ NL +:+ join NL ["ef"; "gh"])
       :: tail ["ab.cd"; "ab.cd"; "ab"; "cd"]
       ++ tail [join NL ["ef"; "gh"]; "ef"; "gh"]).
Proof.
  apply (summaries_of_long_documents_concatenate (budget_model 3) 3
           "ab.cd" (join NL ["ef"; "gh"]));
    first [reflexivity | discriminate].
Defined.

(** A runaway loop and a finished run, each at fuel 3 and at fuel 9. *)
Example three_iterations_or_none_both_cases :
  fst (abstractive_summary (budget_model 4) 3 "abcde" []) = OutOfFuel ∧
  fst (abstractive_summary (budget_model 4) 9 "abcde" []) = OutOfFuel ∧
  abstractive_summary (budget_model 4) 9 "a.b.c" [] =
  abstractive_summary (budget_model 4) 3 "a.b.c" [].
Proof. repeat split; reflexivity. Qed.

(** A document of three lines: the first has two sentence units, the
    second fits, the third has three sentence units. *)
Lemma fallback_run_in_full_witness :
  abstractive_summary (budget_model 3) 3
    (join NL ["ab.cd"; "ef"; "a.b.c"]) [] =
    (Val (join NL ["<ab>"; "<cd>"; "<ef>"; "<a>"; "<b>"; "<c>"]),
     [join NL ["ab.cd"; "ef"; "a.b.c"];
      "ab.cd"; "ab"; "cd"; "ef"; "a.b.c"; "a"; "b"; "c"]).
Proof.
  apply (fallback_run_in_full (budget_model 3) 3
           (join NL ["ab.cd"; "ef"; "a.b.c"]) []).
  - reflexivity.
  - repeat (apply Forall_cons_2;
            [first [ left; eexists; reflexivity
                   | right; split; [reflexivity|];
                     split; [vm_compute; lia|];
                     repeat (apply Forall_cons_2; [eexists; reflexivity|]);
                     apply Forall_nil_2 ]|]).
    apply Forall_nil_2.
  - lia.
Defined.

Lemma runaway_exactly_when_witness :
  fst (abstractive_summary (budget_model 4) 3 "abcde" []) = OutOfFuel ↔
  answer (budget_model 4) "abcde" = Exc IndexError ∧
  ∃ (ps1 : list string) (p : string) (ps2 acc : list string) (tr1 : trace),
    List.filter truthy (split LF "abcde") = ps1 ++ p :: ps2 ∧
    for_paragraphs (budget_model 4) 3 ps1 [] ([] ++ ["abcde"])
      = (Val acc, tr1) ∧
    answer (budget_model 4) p = Exc IndexError ∧
    count DOT p = 0 ∧
    ∃ s, answer (budget_model 4) EmptyString = Val s.
Proof.
  apply (runaway_exactly_when (budget_model 4) 3 "abcde" []). lia.
Defined.

(** A paragraph that ends in a period: three units, the last one empty,
    and the empty string is the third segment submitted. *)
Lemma empty_sentence_fragments_are_submitted_witness :
  length (split DOT "A.B.") = 3 ∧
  split DOT ("a" +:+ ".") = split DOT "a" ++ [EmptyString] ∧
  split DOT ("a" +:+ ".." +:+ "b.c") =
    split DOT "a" ++ EmptyString :: split DOT "b.c" ∧
  concat [["A"]; ["B"]; [EmptyString]] = split DOT "A.B." ∧
  Forall (λ c, c ≠ [] ∧ (length c ≤ 1)%nat)
    [["A"]; ["B"]; [EmptyString]] ∧
  split_further (budget_model 3) 3 "A.B." [] [] =
    (Val ["<A>"; "<B>"; "<>"], ["A"; "B"; EmptyString]) ∧
  abstractive_summary (budget_model 3) 3 "A.B." [] =
    (Val (join NL ["<A>"; "<B>"; "<>"]),
     ["A.B."; "A.B."; "A"; "B"; EmptyString]) ∧
  EmptyString ∉ List.filter truthy (split LF "A.B.").
Proof.
  destruct (empty_sentence_fragments_are_submitted (budget_model 3) 3
              "A.B." "a" "b.c" [] [])
    as (H1 & H2 & H3 & H4 & H5 & H6 & H7 & H8).
  - vm_compute. lia.
  - repeat (apply Forall_cons_2; [eexists; reflexivity|]).
    apply Forall_nil_2.
  - lia.
  - exact (conj H1 (conj H2 (conj H3 (conj H4 (conj H5 (conj H6
             (conj (H7 eq_refl eq_refl) H8))))))).
Defined.

Lemma missing_summary_text_key_witness :
  abstractive_summary keyless_model 0 "Some text." [] =
    (Exc (KeyError "summary_text"), ["Some text."]).
Proof.
  apply (missing_summary_text_key keyless_model 0 "Some text."
           {[ "generated_text" := "x" ]} [] []); reflexivity.
Defined.

Lemma blank_document_gives_empty_summary_witness :
  abstractive_summary (budget_model 1) 0 (NL +:+ NL) [] =
    (Val EmptyString, [NL +:+ NL]).
Proof.
  apply (blank_document_gives_empty_summary (budget_model 1) 0
           (NL +:+ NL) []); reflexivity.
Defined.

Lemma one_line_document_is_submitted_twice_witness :
  ∃ calls : list string,
    snd (abstractive_summary (budget_model 2) 3 "abc.def" []) =
      [] ++ "abc.def" :: "abc.def" :: calls.
Proof.
  apply (one_line_document_is_submitted_twice (budget_model 2) 3
           "abc.def" []); first [reflexivity | discriminate].
Defined.

Lemma only_the_first_summary_text_is_observed_witness :
  abstractive_summary (budget_model 4) 3 "a.b.c" [] =
  abstractive_summary (silent_budget_model 4) 3 "a.b.c" [].
Proof.
  apply (only_the_first_summary_text_is_observed
           (budget_model 4) (silent_budget_model 4) 3 "a.b.c" []).
  intros x. unfold answer, summary_text, bind, call_model.
  unfold budget_model, silent_budget_model. simpl.
  destruct (Nat.ltb 4 (String.length x)); reflexivity.
Defined.

End DriverProps.
